(** * A shallow embedding of the black-hole (minesweeper) game of [main.go]

    The play field, its construction, the random placement of black holes,
    the adjacency counters, the flood reveal, the win and loss checks, the
    command parser and one iteration of the interaction loop are translated
    function by function from [main.go], and the properties stated in the
    specification are proved (or refuted) about these translations.

    Conventions of the embedding:
    - a Go [int] is a [Z] in the range of a 64-bit two's complement integer,
      every arithmetic operation of the source is followed by [wrap] (the
      counters of the [for] loops excepted, which stay below their bound);
      [int8] (the adjacency counter) wraps at 8 bits;
    - a slice is a [list]; reading or writing outside of it panics;
    - a function that may panic or loop returns an [outcome];
    - the map used as a set of visited positions is a [gset];
    - the random source is a sequence of integers, one per call of
      [rand.Intn];
    - output to the console is not part of the model. *)

From Stdlib Require Import ZArith String Ascii List Lia.
From stdpp Require Import base tactics option list gmap sets.

Open Scope Z_scope.

(** ** Machine integers *)

Module GoInt.

Definition min_int : Z := - 2 ^ 63.
Definition max_int : Z := 2 ^ 63 - 1.

(** Two's complement wrap-around of a 64-bit signed integer. *)
Definition wrap (z : Z) : Z := (z - min_int) `mod` 2 ^ 64 + min_int.

Definition add (a b : Z) : Z := wrap (a + b).
Definition sub (a b : Z) : Z := wrap (a - b).
Definition mul (a b : Z) : Z := wrap (a * b).

(** Wrap-around of an [int8]. *)
Definition wrap8 (z : Z) : Z := (z + 128) `mod` 256 - 128.

(** The [x++] of an [int8] variable. *)
Definition incr8 (a : Z) : Z := wrap8 (a + 1).

Definition in_range (z : Z) : Prop := min_int ≤ z ≤ max_int.

End GoInt.

Arguments GoInt.wrap : simpl never.
Arguments GoInt.add : simpl never.
Arguments GoInt.sub : simpl never.
Arguments GoInt.mul : simpl never.
Arguments GoInt.wrap8 : simpl never.
Arguments GoInt.incr8 : simpl never.

Infix "+!" := GoInt.add (at level 50, left associativity).
Infix "-!" := GoInt.sub (at level 50, left associativity).
Infix "*!" := GoInt.mul (at level 40, left associativity).

(** ** Results of a computation that may panic or keep running *)

Inductive panic : Type :=
  | IndexOutOfRange
  | IntnInvalidArgument
  | PlacementExhausted (quantity maxAttempts : Z).

Inductive outcome (A : Type) : Type :=
  | Done (a : A)
  | Panic (p : panic)
  | OutOfFuel.

Arguments Done {A} a.
Arguments Panic {A} p.
Arguments OutOfFuel {A}.

Definition outcome_bind {A B : Type} (k : A → outcome B) (m : outcome A) : outcome B :=
  match m with
  | Done a => k a
  | Panic p => Panic p
  | OutOfFuel => OutOfFuel
  end.

#[global] Instance outcome_mret : MRet outcome := λ A a, Done a.
#[global] Instance outcome_mbind : MBind outcome := λ A B k m, outcome_bind k m.

(** [for i := range l { body }] threading the state [s]. *)
Fixpoint for_each {S : Type} (l : list Z) (body : Z → S → outcome S) (s : S) : outcome S :=
  match l with
  | [] => Done s
  | i :: l' => s' ← body i s; for_each l' body s'
  end.

(** A loop whose body may [return] a value: [Some r] leaves the loop. *)
Fixpoint for_return {R : Type} (l : list Z) (body : Z → outcome (option R)) : outcome (option R) :=
  match l with
  | [] => Done None
  | i :: l' =>
      r ← body i;
      match r with
      | Some x => Done (Some x)
      | None => for_return l' body
      end
  end.

(** The indices of [for i := 0; i < n; i++]. *)
Definition upto (n : Z) : list Z := seqZ 0 n.

(** ** Data model *)

Abbreviation playCellPos := (Z * Z)%type (only parsing).

Record playCell : Type := mkCell {
  IsVisible : bool;
  IsBlackHole : bool;
  IsMarked : bool;
  IsExploded : bool;
  AdjucentBlackHoleQuantity : Z
}.

Record playField : Type := mkField {
  Width : Z;
  Height : Z;
  BlackHoleQuantity : Z;
  Cells : list playCell
}.

(** The zero value of [playCell], as produced by [make]. *)
Definition zeroCell : playCell := mkCell false false false false 0.

Definition setVisible (c : playCell) : playCell :=
  mkCell true (IsBlackHole c) (IsMarked c) (IsExploded c) (AdjucentBlackHoleQuantity c).
Definition setBlackHole (c : playCell) : playCell :=
  mkCell (IsVisible c) true (IsMarked c) (IsExploded c) (AdjucentBlackHoleQuantity c).
Definition setMarked (c : playCell) : playCell :=
  mkCell (IsVisible c) (IsBlackHole c) true (IsExploded c) (AdjucentBlackHoleQuantity c).
Definition setExploded (c : playCell) : playCell :=
  mkCell (IsVisible c) (IsBlackHole c) (IsMarked c) true (AdjucentBlackHoleQuantity c).
Definition incrAdjucent (c : playCell) : playCell :=
  mkCell (IsVisible c) (IsBlackHole c) (IsMarked c) (IsExploded c)
         (GoInt.incr8 (AdjucentBlackHoleQuantity c)).

Definition withCells (f : playField) (cs : list playCell) : playField :=
  mkField (Width f) (Height f) (BlackHoleQuantity f) cs.

(** [cells[i]]: a read of the slice, panicking outside of it. *)
Definition cell_at (cells : list playCell) (i : Z) : outcome playCell :=
  if i <? 0 then Panic IndexOutOfRange
  else match cells !! Z.to_nat i with
       | Some c => Done c
       | None => Panic IndexOutOfRange
       end.

(** An update in place of [cells[i]] through a pointer to it. *)
Definition cell_modify (cells : list playCell) (i : Z) (g : playCell → playCell)
  : outcome (list playCell) :=
  c ← cell_at cells i; Done (<[Z.to_nat i := g c]> cells).

Definition field_modify (f : playField) (i : Z) (g : playCell → playCell) : outcome playField :=
  cs ← cell_modify (Cells f) i g; Done (withCells f cs).

(** ** Construction *)

Inductive configError : Type :=
  | WidthNotPositive
  | HeightNotPositive
  | QuantityNotPositive
  | QuantityTooHigh.

Definition NewPlayField (fieldWidth fieldHeight blackHoleQuantity : Z) : playField + configError :=
  if fieldWidth <=? 0 then inr WidthNotPositive
  else if fieldHeight <=? 0 then inr HeightNotPositive
  else if blackHoleQuantity <? 1 then inr QuantityNotPositive
  else if blackHoleQuantity >? fieldWidth *! fieldHeight then inr QuantityTooHigh
  else inl (mkField fieldWidth fieldHeight blackHoleQuantity
                    (replicate (Z.to_nat (fieldWidth *! fieldHeight)) zeroCell)).

(** ** Reveal or mark one cell, detonation check, win check *)

Definition updateFieldCell (field : playField) (width height : Z) (marked : bool)
  : outcome playField :=
  let rowBias := height *! Width field in
  if marked
  then field_modify field (rowBias +! width) setMarked
  else field_modify field (rowBias +! width) setVisible.

Definition checkFieldBlackHole (field : playField) (width height : Z)
  : outcome (playField * bool) :=
  let rowBias := height *! Width field in
  currentCell ← cell_at (Cells field) (rowBias +! width);
  if IsVisible currentCell && IsBlackHole currentCell
  then field' ← field_modify field (rowBias +! width) setExploded; Done (field', true)
  else Done (field, false).

Definition checkWinResult (field : playField) : outcome bool :=
  r ← for_return (upto (Height field)) (λ height,
         for_return (upto (Width field)) (λ width,
           currentCell ← cell_at (Cells field) (height *! Width field +! width);
           if negb (IsBlackHole currentCell)
              && (negb (IsVisible currentCell) || IsMarked currentCell)
           then Done (Some false)
           else Done None));
  Done (default true r).

(** ** Placement of the black holes *)

(** [rand.Intn(n)] panics for [n <= 0] and otherwise delivers some value of
    [0 .. n-1]: the value [r] offered by the random source, reduced to that
    interval (a value already inside is delivered unchanged). *)
Definition Intn (r n : Z) : outcome Z :=
  if n <=? 0 then Panic IntnInvalidArgument else Done (r `mod` n).

(** The loop of [addBlackHoles]. [rnd] is the random source (its [draw]-th
    value is consumed by the [draw]-th call of [rand.Intn]) and [fuel] bounds
    the number of iterations. The list [placed] is a ghost record of the
    indices at which [IsBlackHole = true] has been assigned, latest first. *)
Fixpoint addBlackHoles_loop (fuel : nat) (rnd : nat → Z) (draw : nat) (field : playField)
    (fieldSize maxAttempts attempts blackHoles : Z) (placed : list Z)
  : outcome (playField * list Z) :=
  if blackHoles <? BlackHoleQuantity field then
    match fuel with
    | O => OutOfFuel
    | S fuel' =>
        blackHolePos ← Intn (rnd draw) fieldSize;
        cell ← cell_at (Cells field) blackHolePos;
        if negb (IsBlackHole cell) then
          field' ← field_modify field blackHolePos setBlackHole;
          addBlackHoles_loop fuel' rnd (S draw) field' fieldSize maxAttempts
                             (attempts +! 1) (blackHoles +! 1) (blackHolePos :: placed)
        else if attempts >=? BlackHoleQuantity field *! 100 then
          Panic (PlacementExhausted (BlackHoleQuantity field) maxAttempts)
        else
          addBlackHoles_loop fuel' rnd (S draw) field fieldSize maxAttempts
                             attempts blackHoles placed
    end
  else Done (field, placed).

Definition addBlackHoles_placed (fuel : nat) (rnd : nat → Z) (field : playField)
  : outcome (playField * list Z) :=
  let fieldSize := Width field *! Height field in
  let attempts := 0 in
  let maxAttempts := BlackHoleQuantity field *! 100 in
  let blackHoles := 0 in
  addBlackHoles_loop fuel rnd O field fieldSize maxAttempts attempts blackHoles [].

Definition addBlackHoles (fuel : nat) (rnd : nat → Z) (field : playField) : outcome playField :=
  r ← addBlackHoles_placed fuel rnd field; Done r.1.

(** ** Adjacency counters *)

(** One of the eight blocks [if guard && field.Cells[neighbourPos].IsBlackHole
    { currentCell.AdjucentBlackHoleQuantity++ }]; the slice is read only when
    the guard holds. *)
Definition countNeighbour (guard : bool) (neighbourPos currentPos : Z) (field : playField)
  : outcome playField :=
  if guard then
    neighbour ← cell_at (Cells field) neighbourPos;
    if IsBlackHole neighbour then field_modify field currentPos incrAdjucent
    else Done field
  else Done field.

(** The body of the two loops of [addAdjacentBlackHoles]. *)
Definition addAdjacentBlackHoles_cell (height width : Z) (field : playField) : outcome playField :=
  let rowBias := height *! Width field in
  let currentPos := rowBias +! width in
  _ ← cell_at (Cells field) currentPos;
  (* Left *)
  field ← countNeighbour (width >? 0) (currentPos -! 1) currentPos field;
  (* Right *)
  field ← countNeighbour (width <? Width field -! 1) (currentPos +! 1) currentPos field;
  (* Up *)
  field ← countNeighbour (height >? 0) (currentPos -! Width field) currentPos field;
  (* Down *)
  field ← countNeighbour (height <? Height field -! 1) (currentPos +! Width field)
                         currentPos field;
  (* Left-Up *)
  field ← countNeighbour ((width >? 0) && (height >? 0))
                         (currentPos -! Width field -! 1) currentPos field;
  (* Left-Down *)
  field ← countNeighbour ((width >? 0) && (height <? Height field -! 1))
                         (currentPos +! Width field -! 1) currentPos field;
  (* Right-Up *)
  field ← countNeighbour ((width <? Width field -! 1) && (height >? 0))
                         (currentPos -! Width field +! 1) currentPos field;
  (* Right-Down *)
  countNeighbour ((width <? Width field -! 1) && (height <? Height field -! 1))
                 (currentPos +! Width field +! 1) currentPos field.

Definition addAdjacentBlackHoles (field : playField) : outcome playField :=
  for_each (upto (Height field)) (λ height field,
    for_each (upto (Width field)) (λ width field,
      addAdjacentBlackHoles_cell height width field) field) field.

(** ** Flood reveal *)

(** The state threaded through the recursion: the field, mutated in place,
    and the shared set [previousCells]. *)
Abbreviation visitState := (playField * gset (Z * Z))%type (only parsing).

(** One of the four blocks of [updateFieldVisibility]: when the guard holds
    and the neighbour is no black hole, the neighbour becomes visible and,
    unless its position is in [previousCells] already, the position is added
    and the function recurses ([self]) into it. *)
Definition visitNeighbour (self : Z → Z → visitState → outcome visitState)
    (guard : bool) (neighbourPos : Z) (currentPlayCellPos : playCellPos) (st : visitState)
  : outcome visitState :=
  if guard then
    neighbour ← cell_at (Cells st.1) neighbourPos;
    if negb (IsBlackHole neighbour) then
      field ← field_modify st.1 neighbourPos setVisible;
      if decide (currentPlayCellPos ∈ st.2) then Done (field, st.2)
      else self currentPlayCellPos.1 currentPlayCellPos.2
                (field, {[currentPlayCellPos]} ∪ st.2)
    else Done st
  else Done st.

(** [fuel] bounds the depth of the recursion. *)
Fixpoint updateFieldVisibility (fuel : nat) (width height : Z) (st : visitState)
  : outcome visitState :=
  match fuel with
  | O => OutOfFuel
  | S fuel' =>
      let W := Width st.1 in
      let H := Height st.1 in
      let rowBias := height *! W in
      let currentPos := rowBias +! width in
      currentCell ← cell_at (Cells st.1) currentPos;
      if AdjucentBlackHoleQuantity currentCell =? 0 then
        (* Left *)
        st ← visitNeighbour (updateFieldVisibility fuel') (width >? 0)
                            (currentPos -! 1) (width -! 1, height) st;
        (* Right *)
        st ← visitNeighbour (updateFieldVisibility fuel') (width <? W -! 1)
                            (currentPos +! 1) (width +! 1, height) st;
        (* Up *)
        st ← visitNeighbour (updateFieldVisibility fuel') (height >? 0)
                            (currentPos -! W) (width, height -! 1) st;
        (* Down *)
        visitNeighbour (updateFieldVisibility fuel') (height <? H -! 1)
                       (currentPos +! W) (width, height +! 1) st
      else Done st
  end.

(** ** Text: the functions of Go's [strings] and [strconv] used by the parser

    A Go string is a sequence of bytes, here a [string] of Rocq (a list of
    8-bit characters). White space is Unicode's, in its UTF-8 encoding. *)

Definition code (a : ascii) : Z := Z.of_N (N_of_ascii a).

(** The number of bytes of the white space character at the head of the
    bytes [l], [0] when there is none: tab, line feed, vertical tab, form
    feed, carriage return, space, U+0085, U+00A0, U+1680, U+2000 to U+200A,
    U+2028, U+2029, U+202F, U+205F and U+3000. *)
Definition space_width (l : list ascii) : nat :=
  match code <$> take 3 l with
  | c :: rest =>
      if (9 <=? c) && (c <=? 13) || (c =? 32) then 1%nat
      else match c, rest with
           | 194, d :: _ => if (d =? 133) || (d =? 160) then 2%nat else 0%nat
           | 225, 154 :: 128 :: _ => 3%nat
           | 226, 128 :: e :: _ =>
               if (128 <=? e) && (e <=? 138) || (e =? 168) || (e =? 169) || (e =? 175)
               then 3%nat else 0%nat
           | 226, 129 :: 159 :: _ => 3%nat
           | 227, 128 :: 128 :: _ => 3%nat
           | _, _ => 0%nat
           end
  | [] => 0%nat
  end.

(** The same for the white space character at the end of a string whose
    bytes are given last byte first. *)
Definition space_width_back (l : list ascii) : nat :=
  if Nat.eqb (space_width (rev (take 1 l))) 1 then 1%nat
  else if Nat.eqb (space_width (rev (take 2 l))) 2 then 2%nat
  else if Nat.eqb (space_width (rev (take 3 l))) 3 then 3%nat
  else 0%nat.

(** Drops the white space at the head; [skip] counts the remaining bytes of
    a white space character of several bytes. *)
Fixpoint trim_left (skip : nat) (l : list ascii) : list ascii :=
  match l with
  | [] => []
  | _ :: l' =>
      match skip with
      | S k => trim_left k l'
      | O => match space_width l with
             | O => l
             | S k => trim_left k l'
             end
      end
  end.

Fixpoint trim_right_rev (skip : nat) (l : list ascii) : list ascii :=
  match l with
  | [] => []
  | _ :: l' =>
      match skip with
      | S k => trim_right_rev k l'
      | O => match space_width_back l with
             | O => l
             | S k => trim_right_rev k l'
             end
      end
  end.

(** [strings.TrimSpace] *)
Definition TrimSpace (s : string) : string :=
  string_of_list_ascii
    (rev (trim_right_rev 0 (rev (trim_left 0 (list_ascii_of_string s))))).

Definition flush (token : list ascii) : list string :=
  match token with
  | [] => []
  | _ => [string_of_list_ascii token]
  end.

Fixpoint fields_from (skip : nat) (token : list ascii) (l : list ascii) : list string :=
  match l with
  | [] => flush token
  | a :: l' =>
      match skip with
      | S k => fields_from k token l'
      | O => match space_width l with
             | O => fields_from 0 (token ++ [a]) l'
             | S k => flush token ++ fields_from k [] l'
             end
      end
  end.

(** [strings.Fields]: the maximal runs of bytes free of white space. *)
Definition Fields (s : string) : list string := fields_from 0 [] (list_ascii_of_string s).

Fixpoint digits_value (acc : Z) (l : list ascii) : option Z :=
  match l with
  | [] => Some acc
  | a :: l' =>
      let c := code a in
      if (48 <=? c) && (c <=? 57) then digits_value (10 * acc + (c - 48)) l' else None
  end.

(** [strconv.Atoi]: an optional sign and at least one decimal digit, the
    value within the range of [int]; [None] stands for its error. *)
Definition Atoi (s : string) : option Z :=
  let l := list_ascii_of_string s in
  let '(negative, digits) :=
    match l with
    | a :: l' => if code a =? 43 then (false, l')
                 else if code a =? 45 then (true, l')
                 else (false, l)
    | [] => (false, l)
    end in
  match digits with
  | [] => None
  | _ => match digits_value 0 digits with
         | None => None
         | Some n =>
             let v := if negative : bool then - n else n in
             if (GoInt.min_int <=? v) && (v <=? GoInt.max_int) then Some v else None
         end
  end.

(** ** The command parser *)

Inductive parseError : Type :=
  | NotEnoughArguments
  | WidthNotInt (arg : string)
  | WidthTooHigh (width limit : Z)
  | HeightNotInt (arg : string)
  | HeightTooHigh (height limit : Z)
  | MarkNotBool (arg : string)
  | TooManyArguments.

Definition arg (commandArguments : list string) (i : nat) : string :=
  default EmptyString (commandArguments !! i).

Definition parseUserCommand (field : playField) (commandParameters : string)
  : Z * Z * bool * option parseError :=
  let trimmedCommandParameters := TrimSpace commandParameters in
  let commandArguments := Fields trimmedCommandParameters in
  let commandArgumentsLen := Z.of_nat (length commandArguments) in
  if commandArgumentsLen <? 2 then (0, 0, false, Some NotEnoughArguments)
  else if (commandArgumentsLen =? 2) || (commandArgumentsLen =? 3) then
    match Atoi (arg commandArguments 0) with
    | None => (0, 0, false, Some (WidthNotInt (arg commandArguments 0)))
    | Some width =>
        if width >=? Width field
        then (0, 0, false, Some (WidthTooHigh width (Width field -! 1)))
        else
          match Atoi (arg commandArguments 1) with
          | None => (0, 0, false, Some (HeightNotInt (arg commandArguments 1)))
          | Some height =>
              if height >=? Height field
              then (0, 0, false, Some (HeightTooHigh height (Height field -! 1)))
              else if commandArgumentsLen =? 3 then
                if String.eqb (arg commandArguments 2) "true"
                   || String.eqb (arg commandArguments 2) "1"
                then (width, height, true, None)
                else if String.eqb (arg commandArguments 2) "false"
                        || String.eqb (arg commandArguments 2) "0"
                then (width, height, false, None)
                else (0, 0, false, Some (MarkNotBool (arg commandArguments 2)))
              else (width, height, false, None)
          end
    end
  else (0, 0, false, Some TooManyArguments).

(** ** The interaction loop of [main] *)

(** The loop run when a black hole has exploded (both of its bounds are
    [playField.Width] in the source). *)
Definition forceTotalVisibility (field : playField) : outcome playField :=
  for_each (upto (Width field)) (λ h field,
    for_each (upto (Width field)) (λ w field,
      updateFieldCell field w h false) field) field.

Inductive turnEnd : Type :=
  | Rejected (e : parseError)
  | Exploded
  | Won
  | Continues.

(** One iteration of the endless loop of [main] on the line read from the
    console; [Exploded] and [Won] stand for the two places where the process
    exits. [fuel] is the depth allowed to the flood reveal. *)
Definition turn (fuel : nat) (field : playField) (commandParameters : string)
  : outcome (playField * turnEnd) :=
  let '(width, height, marked, err) := parseUserCommand field commandParameters in
  match err with
  | Some e => Done (field, Rejected e)
  | None =>
      field ← updateFieldCell field width height marked;
      '(field, exploded) ← checkFieldBlackHole field width height;
      if exploded : bool then
        field ← forceTotalVisibility field;
        Done (field, Exploded)
      else
        field ← (if negb marked
                 then st ← updateFieldVisibility fuel width height (field, ∅); Done st.1
                 else Done field);
        won ← checkWinResult field;
        Done (field, if won : bool then Won else Continues)
  end.

(** The start of [main]: construction, placement, adjacency counters. *)
Definition startGame (fuel : nat) (rnd : nat → Z) (fieldWidth fieldHeight blackHoleQuantity : Z)
  : outcome (playField + configError) :=
  match NewPlayField fieldWidth fieldHeight blackHoleQuantity with
  | inr e => Done (inr e)
  | inl field =>
      field ← addBlackHoles fuel rnd field;
      field ← addAdjacentBlackHoles field;
      Done (inl field)
  end.


(** ** Rendering *)

(** The decimal digits of a number from 0 to 999. *)
Definition digit (d : Z) : ascii := ascii_of_N (Z.to_N (48 + d)).

Definition digits3 (n : Z) : string :=
  if n <? 10 then String (digit n) EmptyString
  else if n <? 100 then String (digit (n `div` 10)) (String (digit (n `mod` 10)) EmptyString)
  else String (digit (n `div` 100))
         (String (digit (n `div` 10 `mod` 10)) (String (digit (n `mod` 10)) EmptyString)).

(** [fmt.Sprintf("%d ", n)] for an [int8]: the decimal notation of [n], with
    its sign when negative, and a space. *)
Definition Sprintf_d_space (n : Z) : string :=
  String.append (if n <? 0 then String "-" (digits3 (- n)) else digits3 n) " ".

(** The two characters (or more, for a counter outside of 0 .. 9) that
    [printField] writes for a cell. *)
Definition cellSymbol (currentCell : playCell) : string :=
  let val := Sprintf_d_space (AdjucentBlackHoleQuantity currentCell) in
  let val := if AdjucentBlackHoleQuantity currentCell =? 0 then ". "%string else val in
  if IsExploded currentCell then "= "%string
  else if negb (IsVisible currentCell) then
    (if IsMarked currentCell then "# "%string else "* "%string)
  else if IsBlackHole currentCell then "@ "%string
  else val.

(** [printField]: the lines written to the console, the empty line first. *)
Definition printField (field : playField) : outcome (list string) :=
  for_each (upto (Height field)) (λ height printed,
    symdolsLine ← for_each (upto (Width field)) (λ width builder,
                     currentCell ← cell_at (Cells field) (height *! Width field +! width);
                     Done (String.append builder (cellSymbol currentCell)))
                   EmptyString;
    Done (printed ++ [symdolsLine])) [EmptyString].

(** ** The game *)

(** The endless loop of [main] on the lines read from the console, as far as
    they go: the loop ends with the process, at an explosion or a win;
    [Continues] tells that the lines are used up and the game is still on. *)
Fixpoint play (fuel : nat) (field : playField) (lines : list string)
  : outcome (playField * turnEnd) :=
  match lines with
  | [] => Done (field, Continues)
  | commandParameters :: lines' =>
      r ← turn fuel field commandParameters;
      match r.2 with
      | Exploded => Done (r.1, Exploded)
      | Won => Done (r.1, Won)
      | _ => play fuel r.1 lines'
      end
  end.
(** ** Vocabulary of the specification *)

(** A field as [NewPlayField] builds it: positive dimensions whose product
    is an [int], and one cell per position. *)
Record wf_field (f : playField) : Prop := mk_wf {
  wf_width : 0 < Width f;
  wf_height : 0 < Height f;
  wf_size : Width f * Height f ≤ GoInt.max_int;
  wf_cells : Z.of_nat (length (Cells f)) = Width f * Height f
}.

Definition in_bounds (f : playField) (w h : Z) : Prop :=
  (0 ≤ w < Width f) ∧ (0 ≤ h < Height f).

(** The cell at column [w] of row [h]. *)
Definition cell_of (f : playField) (w h : Z) : option playCell :=
  Cells f !! Z.to_nat (h * Width f + w).

(** The same dimensions and quantity. *)
Definition same_shape (f f' : playField) : Prop :=
  Width f' = Width f ∧ Height f' = Height f ∧ BlackHoleQuantity f' = BlackHoleQuantity f
  ∧ length (Cells f') = length (Cells f).

(** A cell of a won game: no black hole, or visible and not marked. *)
Definition settled (c : playCell) : Prop :=
  IsBlackHole c = false → IsVisible c = true ∧ IsMarked c = false.

Definition settledb (c : playCell) : bool :=
  IsBlackHole c || (IsVisible c && negb (IsMarked c)).

(** The test of the inner loop of [checkWinResult] at column [w] of row [h]:
    the cell there stands in the way of a win. *)
Definition failing (f : playField) (h w : Z) : bool :=
  match cell_of f w h with
  | Some c => negb (settledb c)
  | None => false
  end.

(** The number of black holes of a slice of cells. *)
Definition count_holes (cs : list playCell) : Z :=
  Z.of_nat (length (List.filter IsBlackHole cs)).

(** What the loop of [addBlackHoles] maintains: [f] is the field [f0] the
    loop started with, where the cells at the indices [placed] - pairwise
    distinct, and free of a black hole in [f0] - have received one. *)
Record placing (f0 f : playField) (placed : list Z) : Prop := mk_placing {
  pl_shape : same_shape f0 f;
  pl_nodup : NoDup placed;
  pl_fresh : ∀ p, p ∈ placed →
             ∃ c0, 0 ≤ p ∧ Cells f0 !! Z.to_nat p = Some c0 ∧ IsBlackHole c0 = false;
  pl_cells : ∀ i c0, Cells f0 !! i = Some c0 →
             Cells f !! i = Some (if decide (Z.of_nat i ∈ placed) then setBlackHole c0 else c0);
  pl_count : count_holes (Cells f) = count_holes (Cells f0) + Z.of_nat (length placed)
}.

(** Is the position inside the field? *)
Definition inb (f : playField) (w h : Z) : bool :=
  (0 <=? w) && (w <? Width f) && (0 <=? h) && (h <? Height f).

(** Is there a black hole at the position (no, outside of the field)? *)
Definition hole_at (f : playField) (w h : Z) : bool :=
  inb f w h && match cell_of f w h with
               | Some c => IsBlackHole c
               | None => false
               end.

(** The eight positions around a position: left, right, up, down and the
    four diagonals. *)
Definition neighbours8 (w h : Z) : list (Z * Z) :=
  [(w - 1, h); (w + 1, h); (w, h - 1); (w, h + 1);
   (w - 1, h - 1); (w - 1, h + 1); (w + 1, h - 1); (w + 1, h + 1)].

(** The number of neighbours, among the eight and inside the field, that
    hold a black hole. *)
Definition adjacent_holes (f : playField) (w h : Z) : nat :=
  length (List.filter (λ p, hole_at f p.1 p.2) (neighbours8 w h)).

(** The counter of a cell incremented [k] times. *)
Definition bumped (k : nat) (c : playCell) : playCell := Nat.iter k incrAdjucent c.

Definition b2n (b : bool) : nat := if b then 1%nat else 0%nat.

(** Fields that agree on the dimensions and on where the black holes are. *)
Definition same_holes (f g : playField) : Prop :=
  Width g = Width f ∧ Height g = Height f
  ∧ ∀ i, IsBlackHole <$> (Cells g !! i) = IsBlackHole <$> (Cells f !! i).

(** The field [g] in which the counter of the cell [c] at column [w] of row
    [h] has been incremented [k] times. *)
Definition passed (g : playField) (w h : Z) (c : playCell) (k : nat) : playField :=
  withCells g (<[Z.to_nat (h * Width g + w) := bumped k c]> (Cells g)).

(** What the loops of [addAdjacentBlackHoles] maintain: in [g] the cells of
    the first [n] positions of [f], row after row, have had their counter
    incremented once per black hole around them; the other cells are those
    of [f]. *)
Definition counted (f : playField) (n : Z) (g : playField) : Prop :=
  same_shape f g
  ∧ ∀ w h c0, in_bounds f w h → cell_of f w h = Some c0 →
      cell_of g w h = Some (if decide (h * Width f + w < n)
                            then bumped (adjacent_holes f w h) c0 else c0).

(** *** The region of a flood reveal *)

(** The cell at the position has no black hole around it, according to its
    counter. *)
Definition is_zero (f : playField) (p : Z * Z) : Prop :=
  ∃ c, cell_of f p.1 p.2 = Some c ∧ AdjucentBlackHoleQuantity c = 0.

(** The cell at the position is no black hole. *)
Definition is_free (f : playField) (p : Z * Z) : Prop :=
  ∃ c, cell_of f p.1 p.2 = Some c ∧ IsBlackHole c = false.

(** [q] is the left, right, upper or lower neighbour of [p]. *)
Definition orth (p q : Z * Z) : Prop :=
  q = (p.1 - 1, p.2) ∨ q = (p.1 + 1, p.2) ∨ q = (p.1, p.2 - 1) ∨ q = (p.1, p.2 + 1).

(** The traversal, at [p], reveals [q] and may go on to [q]. *)
Definition edge (f : playField) (p q : Z * Z) : Prop :=
  in_bounds f p.1 p.2 ∧ is_zero f p ∧ orth p q ∧ in_bounds f q.1 q.2 ∧ is_free f q.

(** The positions the traversal started at [s] can come to. *)
Inductive Reach (f : playField) (s : Z * Z) : Z * Z → Prop :=
  | reach_start : Reach f s s
  | reach_step p q : Reach f s p → edge f p q → Reach f s q.

(** The positions the traversal started at [s] reveals. *)
Definition Revealed (f : playField) (s q : Z * Z) : Prop :=
  ∃ p, Reach f s p ∧ edge f p q.

(** The region of [s] in the words of the specification: the positions
    joined to [s] by a path of orthogonal steps through cells that have a
    zero counter and are no black hole. *)
Inductive Region (f : playField) (s : Z * Z) : Z * Z → Prop :=
  | region_start : Region f s s
  | region_step p q :
      Region f s p → orth p q → in_bounds f q.1 q.2 → is_zero f q → is_free f q →
      Region f s q.

(** The orthogonal neighbours of the region that are no black hole: the
    cells of the region next to another of its cells, and its border. *)
Definition NextToRegion (f : playField) (s q : Z * Z) : Prop :=
  ∃ p, Region f s p ∧ orth p q ∧ in_bounds f q.1 q.2 ∧ is_free f q.

(** [g] is [f] where the cells at the positions of [V] have been made
    visible. *)
Definition shown (f : playField) (V : gset (Z * Z)) (g : playField) : Prop :=
  same_shape f g
  ∧ ∀ w h c, in_bounds f w h → cell_of f w h = Some c →
      cell_of g w h = Some (if decide ((w, h) ∈ V) then setVisible c else c).

(** All the positions of the field. *)
Definition positions (f : playField) : gset (Z * Z) :=
  list_to_set ((λ i, (i `mod` Width f, i `div` Width f)) <$> seqZ 0 (Width f * Height f)).

(** The traversal is through with [p]: what it reveals from [p] is visible
    and has been visited. *)
Definition processed (f : playField) (prev V : gset (Z * Z)) (p : Z * Z) : Prop :=
  ∀ q, edge f p q → q ∈ V ∧ q ∈ prev.

(** What a call of [updateFieldVisibility] at [s] achieves, from the set
    [prev] of visited positions and the set [V] of positions made visible so
    far, to [prev'] and [V']. *)
Definition flooded (f : playField) (s : Z * Z) (prev V prev' V' : gset (Z * Z)) : Prop :=
  prev ⊆ prev' ∧ V ⊆ V'
  ∧ (∀ q, q ∈ V' → q ∈ V ∨ Revealed f s q)
  ∧ (∀ q, q ∈ prev' → q ∈ prev ∨ Reach f s q)
  ∧ processed f prev' V' s
  ∧ (∀ p, p ∈ prev' → p ∈ prev ∨ processed f prev' V' p).

(** What the blocks of [updateFieldVisibility] run so far at [s] have
    achieved, [Q] telling the neighbours they have dealt with. *)
Definition handled (f : playField) (s : Z * Z) (Q : Z * Z → Prop)
    (prev V prev' V' : gset (Z * Z)) : Prop :=
  prev ⊆ prev' ∧ V ⊆ V'
  ∧ (∀ q, q ∈ V' → q ∈ V ∨ Revealed f s q)
  ∧ (∀ q, q ∈ prev' → q ∈ prev ∨ Reach f s q)
  ∧ (∀ q, Q q → edge f s q → q ∈ V' ∧ q ∈ prev')
  ∧ (∀ p, p ∈ prev' → p ∈ prev ∨ processed f prev' V' p).

(** The specification of the calls of [updateFieldVisibility] with the fuel
    [n]: started inside the field with fewer than [n] positions left to
    visit, the call returns, and has flooded from its position. *)
Definition visit_spec (f : playField) (n : nat) : Prop :=
  ∀ w h g prev V,
    in_bounds f w h → shown f V g → (size (positions f ∖ prev) < n)%nat →
    ∃ g' prev' V',
      updateFieldVisibility n w h (g, prev) = Done (g', prev')
      ∧ shown f V' g' ∧ flooded f (w, h) prev V prev' V'.

(** The field 3 x 3 with two black holes, in the upper right and the lower
    left corner, as [main] sets it up when the random source delivers 2 and
    then 6. *)
Definition corner_field : playField :=
  mkField 3 3 2
    [mkCell false false false false 0; mkCell false false false false 1;
     mkCell false true false false 0;
     mkCell false false false false 1; mkCell false false false false 2;
     mkCell false false false false 1;
     mkCell false true false false 0; mkCell false false false false 1;
     mkCell false false false false 0].

(** The field 1 wide and 2 high, and the field 2 wide and 1 high, with one
    black hole in the first cell, as [main] sets them up when the random
    source delivers 0. *)
Definition tall_field : playField :=
  mkField 1 2 1 [mkCell false true false false 0; mkCell false false false false 1].

Definition wide_field : playField :=
  mkField 2 1 1 [mkCell false true false false 0; mkCell false false false false 1].

(** What the loops run at an explosion maintain: the cells of the first [n]
    positions, row after row, are visible; the other cells are untouched. *)
Definition lit (f : playField) (n : Z) (g : playField) : Prop :=
  same_shape f g
  ∧ ∀ w h c, in_bounds f w h → cell_of f w h = Some c →
      cell_of g w h = Some (if decide (h * Width f + w < n) then setVisible c else c).

(** *** What the game never undoes *)

(** From [c] to [c'] the black hole and the counter are kept, no flag has
    been cleared, and the cell has exploded only if it had before or is a
    visible black hole. *)
Definition cell_le (c c' : playCell) : Prop :=
  IsBlackHole c' = IsBlackHole c
  ∧ AdjucentBlackHoleQuantity c' = AdjucentBlackHoleQuantity c
  ∧ (IsVisible c = true → IsVisible c' = true)
  ∧ (IsMarked c = true → IsMarked c' = true)
  ∧ (IsExploded c = true → IsExploded c' = true)
  ∧ (IsExploded c' = true →
     IsExploded c = true ∨ (IsVisible c' = true ∧ IsBlackHole c' = true)).

(** The field [g] is the field [f] later in the game. *)
Definition grows (f g : playField) : Prop :=
  same_shape f g
  ∧ ∀ i c, Cells f !! i = Some c → ∃ c', Cells g !! i = Some c' ∧ cell_le c c'.

(** Only visible black holes have exploded. *)
Definition exploded_ok (f : playField) : Prop :=
  ∀ i c, Cells f !! i = Some c → IsExploded c = true →
    IsVisible c = true ∧ IsBlackHole c = true.

(** Some cell that is no black hole is marked. *)
Definition safe_marked (f : playField) : Prop :=
  ∃ i c, Cells f !! i = Some c ∧ IsBlackHole c = false ∧ IsMarked c = true.

(** The cells of row [h]. *)
Definition row (f : playField) (h : Z) : list playCell :=
  take (Z.to_nat (Width f)) (drop (Z.to_nat (h * Width f)) (Cells f)).

(** What the player is shown of a cell. *)
Inductive cellView : Type :=
  | ViewExploded
  | ViewHidden (marked : bool)
  | ViewBlackHole
  | ViewCount (n : Z).

Definition view (c : playCell) : cellView :=
  if IsExploded c then ViewExploded
  else if negb (IsVisible c) then ViewHidden (IsMarked c)
  else if IsBlackHole c then ViewBlackHole
  else ViewCount (AdjucentBlackHoleQuantity c).

(** The field [f] with the cell [c'] at column [w] of row [h]. *)
Definition put (f : playField) (w h : Z) (c' : playCell) : playField :=
  withCells f (<[Z.to_nat (h * Width f + w) := c']> (Cells f)).

(** The characters written for a view. *)
Definition viewSymbol (v : cellView) : string :=
  match v with
  | ViewExploded => "= "
  | ViewHidden true => "# "
  | ViewHidden false => "* "
  | ViewBlackHole => "@ "
  | ViewCount n => if n =? 0 then ". " else Sprintf_d_space n
  end.

#[global] Instance cellView_eq_dec : EqDecision cellView.
Proof. solve_decision. Defined.

(** All the views of cells whose counter is an [int8]. *)
Definition allViews : list cellView :=
  [ViewExploded; ViewHidden true; ViewHidden false; ViewBlackHole]
  ++ (ViewCount <$> seqZ (-128) 256).

(** No two of these views are written alike. *)
Definition views_told_apart : bool :=
  forallb (λ v, forallb (λ v', implb (String.eqb (viewSymbol v) (viewSymbol v'))
                                     (bool_decide (v = v'))) allViews) allViews.

(** * Facts *)

(** ** Machine integers and the monad *)

Lemma wrap_small z : GoInt.in_range z → GoInt.wrap z = z.
Proof.
  unfold GoInt.in_range, GoInt.wrap, GoInt.min_int, GoInt.max_int. intros Hz.
  rewrite Z.mod_small; lia.
Qed.

Lemma wrap8_small z : -128 ≤ z ≤ 127 → GoInt.wrap8 z = z.
Proof. unfold GoInt.wrap8. intros Hz. rewrite Z.mod_small; lia. Qed.

Lemma wrap_in_range z : GoInt.in_range (GoInt.wrap z).
Proof.
  unfold GoInt.in_range, GoInt.wrap, GoInt.min_int, GoInt.max_int.
  pose proof (Z.mod_pos_bound (z - - 2 ^ 63) (2 ^ 64)). lia.
Qed.

Lemma add_small a b : GoInt.in_range (a + b) → a +! b = a + b.
Proof. apply wrap_small. Qed.

Lemma sub_small a b : GoInt.in_range (a - b) → a -! b = a - b.
Proof. apply wrap_small. Qed.

Lemma mul_small a b : GoInt.in_range (a * b) → a *! b = a * b.
Proof. apply wrap_small. Qed.

Lemma bind_Done {A B} (a : A) (k : A → outcome B) : (Done a ≫= k) = k a.
Proof. reflexivity. Qed.

Lemma bind_Done_inv {A B} (m : outcome A) (k : A → outcome B) (b : B) :
  (m ≫= k) = Done b → ∃ a, m = Done a ∧ k a = Done b.
Proof. destruct m as [a| |]; [eauto | discriminate | discriminate]. Qed.

(** ** Slices *)

Lemma cell_at_Done cells i c :
  cell_at cells i = Done c ↔ 0 ≤ i ∧ cells !! Z.to_nat i = Some c.
Proof.
  unfold cell_at. destruct (Z.ltb_spec i 0) as [Hi|Hi].
  - split; [discriminate | lia].
  - destruct (cells !! Z.to_nat i) as [c'|]; split.
    + intros [= ->]. done.
    + intros [_ [= ->]]. done.
    + discriminate.
    + intros [_ ?]. discriminate.
Qed.

Lemma cell_at_in_range cells i :
  0 ≤ i < Z.of_nat (length cells) → ∃ c, cell_at cells i = Done c.
Proof.
  intros Hi. destruct (lookup_lt_is_Some_2 cells (Z.to_nat i)) as [c Hc]; [lia|].
  exists c. apply cell_at_Done. split; [lia | done].
Qed.

Lemma cell_at_out cells i :
  ¬ (0 ≤ i < Z.of_nat (length cells)) → cell_at cells i = Panic IndexOutOfRange.
Proof.
  intros Hi. unfold cell_at. destruct (Z.ltb_spec i 0) as [|Hi0]; [done|].
  rewrite lookup_ge_None_2; [done | lia].
Qed.

Lemma field_modify_Done f i g f' :
  field_modify f i g = Done f' ↔
  ∃ c, 0 ≤ i ∧ Cells f !! Z.to_nat i = Some c
       ∧ f' = withCells f (<[Z.to_nat i := g c]> (Cells f)).
Proof.
  unfold field_modify, cell_modify. split.
  - intros H. apply bind_Done_inv in H as (cs & H & [= <-]).
    apply bind_Done_inv in H as (c & Hc & [= <-]).
    apply cell_at_Done in Hc as [? ?]. eauto.
  - intros (c & Hi & Hc & ->).
    assert (cell_at (Cells f) i = Done c) as -> by (apply cell_at_Done; done).
    reflexivity.
Qed.

(** ** Positions and indices *)

Section Positions.
Context (f : playField) (Hwf : wf_field f).

Lemma index_bounds w h :
  in_bounds f w h → 0 ≤ h * Width f + w < Width f * Height f.
Proof using Type. unfold in_bounds. nia. Qed.

Lemma index_exact w h :
  in_bounds f w h → h *! Width f +! w = h * Width f + w.
Proof using Hwf.
  intros Hb. pose proof (index_bounds w h Hb) as Hi.
  destruct Hwf as [HW HH Hsz _]. destruct Hb as [Hw Hh].
  rewrite mul_small; [rewrite add_small; [done|] |];
    unfold GoInt.in_range, GoInt.min_int, GoInt.max_int in *; nia.
Qed.

Lemma cell_of_in_bounds w h : in_bounds f w h → is_Some (cell_of f w h).
Proof using Hwf.
  intros Hb. pose proof (index_bounds w h Hb). unfold cell_of.
  apply lookup_lt_is_Some_2. destruct Hwf. lia.
Qed.

Lemma cell_at_cell_of w h c :
  in_bounds f w h →
  cell_at (Cells f) (h *! Width f +! w) = Done c ↔ cell_of f w h = Some c.
Proof using Hwf.
  intros Hb. rewrite index_exact by done. rewrite cell_at_Done. unfold cell_of.
  pose proof (index_bounds w h Hb). split; [intros [_ ?]; done | intros ?; split; [lia | done]].
Qed.

(** Every cell of the slice is the cell of exactly one position. *)
Lemma position_of_index (i : nat) :
  (i < length (Cells f))%nat →
  ∃ w h, in_bounds f w h ∧ Z.to_nat (h * Width f + w) = i.
Proof using Hwf.
  intros Hi. destruct Hwf as [HW HH _ Hlen].
  exists (Z.of_nat i `mod` Width f), (Z.of_nat i `div` Width f).
  pose proof (Z.mod_pos_bound (Z.of_nat i) (Width f) HW).
  pose proof (Z.div_mod (Z.of_nat i) (Width f) ltac:(lia)).
  assert (0 ≤ Z.of_nat i `div` Width f) by (apply Z.div_pos; lia).
  assert (Z.of_nat i `div` Width f < Height f).
  { apply Z.div_lt_upper_bound; lia. }
  unfold in_bounds. split; [lia | lia].
Qed.

Lemma index_inj w h w' h' :
  in_bounds f w h → in_bounds f w' h' →
  h * Width f + w = h' * Width f + w' → w = w' ∧ h = h'.
Proof using Type.
  unfold in_bounds. intros Hb Hb' Heq.
  assert (h = h') as -> by (destruct (Z.lt_trichotomy h h') as [?|[?|?]]; nia).
  split; [lia | done].
Qed.

End Positions.

(** ** Loops *)

Lemma elem_of_upto n i : i ∈ upto n ↔ 0 ≤ i < n.
Proof. unfold upto. rewrite elem_of_seqZ. lia. Qed.

Lemma for_return_scan {R} (l : list Z) (body : Z → outcome (option R)) (p : Z → bool) (r : R) :
  (∀ i, i ∈ l → body i = Done (if p i then Some r else None)) →
  for_return l body = Done (if existsb p l then Some r else None).
Proof.
  induction l as [|i l IH]; intros Hbody; [done|].
  simpl. rewrite (Hbody i) by left. rewrite bind_Done.
  destruct (p i); [done|]. simpl. apply IH. intros j Hj. apply Hbody. by right.
Qed.

Lemma for_each_inv {S} (P : S → Prop) (l : list Z) (body : Z → S → outcome S) (s : S) :
  P s →
  (∀ i s, i ∈ l → P s → ∃ s', body i s = Done s' ∧ P s') →
  ∃ s', for_each l body s = Done s' ∧ P s'.
Proof.
  revert s. induction l as [|i l IH]; intros s Hs Hbody; [by exists s|].
  destruct (Hbody i s) as (s1 & H1 & HP1); [by left | done |].
  simpl. rewrite H1, bind_Done. apply IH; [done|].
  intros j s2 Hj. apply Hbody. by right.
Qed.

(** ** The win check *)

Lemma settledb_settled c : settledb c = true ↔ settled c.
Proof. unfold settledb, settled. destruct c as [[] [] [] ? ?]; simpl; intuition congruence. Qed.

Section Win.
Context (f : playField) (Hwf : wf_field f).

(** The two loops come to one pass over the slice. *)
Lemma checkWinResult_forallb : checkWinResult f = Done (forallb settledb (Cells f)).
Proof using Hwf.
  unfold checkWinResult.
  rewrite (for_return_scan _ _ (λ h, existsb (failing f h) (upto (Width f))) false).
  2:{ intros h Hh. apply for_return_scan. intros w Hw.
      apply elem_of_upto in Hh, Hw.
      assert (in_bounds f w h) as Hb by done.
      destruct (cell_of_in_bounds f Hwf w h Hb) as [c Hc].
      pose proof (proj2 (cell_at_cell_of f Hwf w h c Hb) Hc) as ->.
      rewrite bind_Done. unfold failing. rewrite Hc.
      unfold settledb. by destruct c as [[] [] [] ? ?]. }
  rewrite bind_Done. f_equal.
  destruct (forallb settledb (Cells f)) eqn:Hall.
  - destruct (existsb _ _) eqn:Hex; [|done]. exfalso.
    apply existsb_exists in Hex as (h & _ & Hex).
    apply existsb_exists in Hex as (w & _ & Hex).
    unfold failing in Hex. destruct (cell_of f w h) as [c|] eqn:Hc; [|done].
    rewrite forallb_forall in Hall. rewrite (Hall c) in Hex; [done|].
    apply list_elem_of_In. by eapply list_elem_of_lookup_2.
  - destruct (existsb _ _) eqn:Hex; [done|]. exfalso.
    apply (f_equal negb) in Hall. simpl in Hall.
    assert (∃ c, c ∈ Cells f ∧ settledb c = false) as (c & Hin & Hc).
    { clear -Hall. induction (Cells f) as [|c l IH]; [done|]. simpl in Hall.
      destruct (settledb c) eqn:Hc.
      - destruct IH as (c' & ? & ?); [done|]. exists c'. split; [by right | done].
      - exists c. split; [by left | done]. }
    apply list_elem_of_lookup in Hin as [i Hi].
    destruct (position_of_index f Hwf i) as (w & h & [Hw Hh] & Hwh).
    { by eapply lookup_lt_Some. }
    assert (existsb (λ h, existsb (failing f h) (upto (Width f))) (upto (Height f)) = true)
      as Htrue; [|congruence].
    apply existsb_exists. exists h. split; [by apply list_elem_of_In, elem_of_upto|].
    apply existsb_exists. exists w. split; [by apply list_elem_of_In, elem_of_upto|].
    unfold failing, cell_of. rewrite Hwh, Hi. by rewrite Hc.
Qed.

End Win.

(** [C7] [checkWinResult] never panics on a well-formed field and answers
    [true] exactly when every cell that is no black hole is visible and not
    marked, whether the cells are taken from the slice or by position; the
    visibility and the mark of the black holes do not matter to the answer;
    a cell that is no black hole, is marked and is not visible makes the
    answer [false]. *)
Theorem checkWinResult_spec (f : playField) (Hwf : wf_field f) :
  ∃ b, checkWinResult f = Done b
  ∧ (b = true ↔ ∀ i c, Cells f !! i = Some c →
                 IsBlackHole c = false → IsVisible c = true ∧ IsMarked c = false)
  ∧ (b = true ↔ ∀ w h c, in_bounds f w h → cell_of f w h = Some c →
                 IsBlackHole c = false → IsVisible c = true ∧ IsMarked c = false)
  ∧ (∀ f', wf_field f' → length (Cells f') = length (Cells f) →
       (∀ i c c', Cells f !! i = Some c → Cells f' !! i = Some c' →
          IsBlackHole c' = IsBlackHole c
          ∧ (IsBlackHole c = false → IsVisible c' = IsVisible c ∧ IsMarked c' = IsMarked c)) →
       checkWinResult f' = Done b)
  ∧ (∀ i c, Cells f !! i = Some c →
       IsBlackHole c = false → IsMarked c = true → IsVisible c = false → b = false).
Proof.
  exists (forallb settledb (Cells f)).
  assert (forallb settledb (Cells f) = true ↔ ∀ i c, Cells f !! i = Some c → settled c) as Hiff.
  { rewrite forallb_forall. split.
    - intros H i c Hc. apply settledb_settled, H, list_elem_of_In.
      by eapply list_elem_of_lookup_2.
    - intros H c Hc. apply list_elem_of_In, list_elem_of_lookup in Hc as [i Hi].
      apply settledb_settled. by eapply H. }
  split; [by apply checkWinResult_forallb|]. split; [exact Hiff|]. split; [|split].
  - rewrite Hiff. split.
    + intros H w h c _ Hc. by eapply H.
    + intros H i c Hc. destruct (position_of_index f Hwf i) as (w & h & Hb & Hwh).
      { by eapply lookup_lt_Some. }
      intros Hbh. apply (H w h c Hb); [|done]. unfold cell_of. by rewrite Hwh.
  - intros f' Hwf' Hlen Hsame. rewrite checkWinResult_forallb by done. f_equal.
    assert (settledb <$> Cells f' = settledb <$> Cells f) as Hmap.
    { apply list_eq. intros i. rewrite !list_lookup_fmap.
      destruct (Cells f !! i) as [c|] eqn:Hc.
      - destruct (lookup_lt_is_Some_2 (Cells f') i) as [c' Hc'].
        { rewrite Hlen. by eapply lookup_lt_Some. }
        rewrite Hc'. simpl. f_equal. destruct (Hsame i c c' Hc Hc') as [Hbh Hrest].
        unfold settledb. rewrite Hbh. destruct (IsBlackHole c); [done|].
        destruct Hrest as [-> ->]; done.
      - rewrite lookup_ge_None_2; [done|]. rewrite Hlen. by apply lookup_ge_None. }
    clear -Hmap. revert Hmap. generalize (Cells f'). induction (Cells f) as [|c l IH];
      intros [|c' l']; simpl; try done.
    intros [= -> Hl]. by rewrite (IH l').
  - intros i c Hc Hbh Hm Hv. destruct (forallb settledb (Cells f)) eqn:Hall; [|done].
    destruct (proj1 Hiff eq_refl i c Hc Hbh) as [? _]. congruence.
Qed.

(** A won 2 x 1 field: one black hole, one visible cell. *)
Lemma checkWinResult_spec_witness :
  ∃ b, checkWinResult (mkField 2 1 1 [setBlackHole zeroCell; setVisible zeroCell]) = Done b.
Proof.
  destruct (checkWinResult_spec (mkField 2 1 1 [setBlackHole zeroCell; setVisible zeroCell]))
    as (b & Hb & _).
  - constructor; simpl; [lia | lia | unfold GoInt.max_int; lia | reflexivity].
  - by exists b.
Defined.

(** ** The detonation check *)

Lemma setExploded_idem c : setExploded (setExploded c) = setExploded c.
Proof. reflexivity. Qed.

Lemma wf_withCells f cs :
  wf_field f → length cs = length (Cells f) → wf_field (withCells f cs).
Proof. intros [HW HH Hsz Hlen] Hcs. constructor; simpl; [done | done | done | lia]. Qed.

Lemma field_modify_in_bounds f w h g c :
  wf_field f → in_bounds f w h → cell_of f w h = Some c →
  field_modify f (h *! Width f +! w) g
  = Done (withCells f (<[Z.to_nat (h * Width f + w) := g c]> (Cells f))).
Proof.
  intros Hwf Hb Hc. apply field_modify_Done. exists c.
  rewrite index_exact by done. pose proof (index_bounds f w h Hb).
  split; [lia | done].
Qed.

(** [C8] At a position inside a well-formed field [checkFieldBlackHole]
    answers [true] exactly when the cell is visible and a black hole. When it
    answers [true], the cell it leaves at the position has [IsExploded] set
    to [true] and its other flags and its counter as they were; the
    dimensions, the quantity and every other cell are as they were. When it
    answers [false] the field is the one it found. Called again on the field
    it left, it gives the same answer and leaves that field as it is. *)
Theorem checkFieldBlackHole_spec (f : playField) (w h : Z)
    (Hwf : wf_field f) (Hb : in_bounds f w h) :
  ∃ c f' b,
    cell_of f w h = Some c
    ∧ checkFieldBlackHole f w h = Done (f', b)
    ∧ (b = true ↔ IsVisible c = true ∧ IsBlackHole c = true)
    ∧ (b = true →
         (∃ c', cell_of f' w h = Some c'
            ∧ IsExploded c' = true
            ∧ IsVisible c' = IsVisible c
            ∧ IsBlackHole c' = IsBlackHole c
            ∧ IsMarked c' = IsMarked c
            ∧ AdjucentBlackHoleQuantity c' = AdjucentBlackHoleQuantity c)
         ∧ f' = withCells f
                  (<[Z.to_nat (h * Width f + w) :=
                       mkCell (IsVisible c) (IsBlackHole c) (IsMarked c) true
                              (AdjucentBlackHoleQuantity c)]> (Cells f))
         ∧ same_shape f f'
         ∧ ∀ w' h', in_bounds f w' h' → (w', h') ≠ (w, h) → cell_of f' w' h' = cell_of f w' h')
    ∧ (b = false → f' = f)
    ∧ checkFieldBlackHole f' w h = Done (f', b).
Proof.
  destruct (cell_of_in_bounds f Hwf w h Hb) as [c Hc].
  pose proof (proj2 (cell_at_cell_of f Hwf w h c Hb) Hc) as Hat.
  pose proof (index_bounds f w h Hb) as Hi.
  unfold checkFieldBlackHole. rewrite Hat, bind_Done.
  destruct (IsVisible c && IsBlackHole c) eqn:Hvb.
  - (* the black hole explodes *)
    rewrite (field_modify_in_bounds f w h setExploded c) by done. rewrite bind_Done.
    set (f' := withCells f _).
    assert (cell_of f' w h = Some (setExploded c)) as Hc'.
    { unfold cell_of, f'. simpl. apply list_lookup_insert_eq. by eapply lookup_lt_Some. }
    assert (wf_field f') as Hwf'.
    { apply wf_withCells; [done|]. by rewrite length_insert. }
    exists c, f', true. split; [done|]. split; [done|].
    split; [apply andb_true_iff in Hvb; tauto|]. split; [|split; [done|]].
    + intros _. split; [by exists (setExploded c)|]. split; [done|]. split.
      { unfold same_shape, f'. simpl. by rewrite length_insert. }
      intros w' h' Hb' Hne. unfold cell_of, f'. simpl. apply list_lookup_insert_ne.
      intros Heq. apply Hne. apply Z2Nat.inj in Heq.
      * destruct (index_inj f w h w' h' Hb Hb') as [-> ->]; done.
      * lia.
      * pose proof (index_bounds f w' h' Hb'). lia.
    + assert (in_bounds f' w h) as Hb2 by done.
      pose proof (proj2 (cell_at_cell_of f' Hwf' w h _ Hb2) Hc') as ->.
      rewrite bind_Done. cbn [setExploded IsVisible IsBlackHole]. rewrite Hvb.
      rewrite (field_modify_in_bounds f' w h setExploded (setExploded c)) by done.
      rewrite bind_Done. do 2 f_equal. unfold f', withCells. simpl. f_equal.
      by rewrite list_insert_insert_eq.
  - exists c, f, false. split; [done|]. split; [done|].
    split; [rewrite <- andb_true_iff, Hvb; done|].
    split; [done|]. split; [done|]. by rewrite Hat, bind_Done, Hvb.
Qed.

(** A visible black hole in the only cell of a 1 x 1 field, not exploded so
    far: the check answers [true] and leaves the cell exploded. *)
Lemma checkFieldBlackHole_spec_witness :
  checkFieldBlackHole (mkField 1 1 1 [mkCell true true false false 0]) 0 0
  = Done (mkField 1 1 1 [mkCell true true false true 0], true).
Proof.
  destruct (checkFieldBlackHole_spec (mkField 1 1 1 [mkCell true true false false 0]) 0 0)
    as (c & f' & b & Hc & Hrun & Hb & Hex & _).
  - constructor; simpl; [lia | lia | unfold GoInt.max_int; lia | reflexivity].
  - unfold in_bounds; simpl; lia.
  - injection Hc as <-.
    assert (b = true) as -> by (apply Hb; split; reflexivity).
    destruct (Hex eq_refl) as (_ & -> & _). exact Hrun.
Defined.

(** ** The command parser *)

Lemma parse_three_tokens (f : playField) (line a b m : string) :
  Fields (TrimSpace line) = [a; b; m] →
  parseUserCommand f line =
    match Atoi a with
    | None => (0, 0, false, Some (WidthNotInt a))
    | Some width =>
        if width >=? Width f then (0, 0, false, Some (WidthTooHigh width (Width f -! 1)))
        else match Atoi b with
             | None => (0, 0, false, Some (HeightNotInt b))
             | Some height =>
                 if height >=? Height f
                 then (0, 0, false, Some (HeightTooHigh height (Height f -! 1)))
                 else if String.eqb m "true" || String.eqb m "1"
                      then (width, height, true, None)
                      else if String.eqb m "false" || String.eqb m "0"
                           then (width, height, false, None)
                           else (0, 0, false, Some (MarkNotBool m))
             end
    end.
Proof. intros Hf. unfold parseUserCommand. rewrite Hf. reflexivity. Qed.

(** A command given in full is parsed by evaluation, once the dimensions of
    the field are known. *)
Ltac parse_example HW HH :=
  unfold parseUserCommand; rewrite ?HW, ?HH; vm_compute; reflexivity.

(** [C6] On a field 8 wide and 8 high the six commands of the specification
    are parsed as it says; and whatever the field, a command of three tokens
    is accepted only with a third token among ["true"], ["1"] (a mark) and
    ["false"], ["0"] (no mark), any other third token giving the error of the
    mark when the coordinates are accepted. *)
Theorem parseUserCommand_examples (f : playField)
    (HW : Width f = 8) (HH : Height f = 8) :
  parseUserCommand f "2 3" = (2, 3, false, None)
  ∧ parseUserCommand f "2 3 true" = (2, 3, true, None)
  ∧ parseUserCommand f "8 3" = (0, 0, false, Some (WidthTooHigh 8 7))
  ∧ parseUserCommand f "2" = (0, 0, false, Some NotEnoughArguments)
  ∧ parseUserCommand f "2 3 maybe" = (0, 0, false, Some (MarkNotBool "maybe"))
  ∧ parseUserCommand f "1 2 3 4" = (0, 0, false, Some TooManyArguments)
  ∧ (∀ (g : playField) (line a b m : string) (x y : Z) (mark : bool),
       Fields (TrimSpace line) = [a; b; m] →
       parseUserCommand g line = (x, y, mark, None) →
       (mark = true ∧ (m = "true" ∨ m = "1")%string)
       ∨ (mark = false ∧ (m = "false" ∨ m = "0")%string))
  ∧ (∀ (g : playField) (line a b m : string) (x y : Z),
       Fields (TrimSpace line) = [a; b; m] →
       Atoi a = Some x → x < Width g → Atoi b = Some y → y < Height g →
       parseUserCommand g line =
         if bool_decide (m = "true" ∨ m = "1")%string then (x, y, true, None)
         else if bool_decide (m = "false" ∨ m = "0")%string then (x, y, false, None)
         else (0, 0, false, Some (MarkNotBool m))).
Proof.
  split; [parse_example HW HH|]. split; [parse_example HW HH|].
  split; [parse_example HW HH|]. split; [parse_example HW HH|].
  split; [parse_example HW HH|]. split; [parse_example HW HH|]. split.
  - intros g line a b m x y mark Hf. rewrite (parse_three_tokens g line a b m Hf).
    destruct (Atoi a) as [wd|]; [|discriminate].
    destruct (wd >=? Width g); [discriminate|].
    destruct (Atoi b) as [ht|]; [|discriminate].
    destruct (ht >=? Height g); [discriminate|].
    destruct (String.eqb_spec m "true") as [->|_]; [intros [= <- <- <-]; auto|].
    destruct (String.eqb_spec m "1") as [->|_]; [intros [= <- <- <-]; auto|].
    destruct (String.eqb_spec m "false") as [->|_]; [intros [= <- <- <-]; auto|].
    destruct (String.eqb_spec m "0") as [->|_]; [intros [= <- <- <-]; auto|].
    discriminate.
  - intros g line a b m x y Hf Ha Hx Hb Hy. rewrite (parse_three_tokens g line a b m Hf).
    rewrite Ha, Hb.
    destruct (Z.geb_spec x (Width g)); [lia|]. destruct (Z.geb_spec y (Height g)); [lia|].
    destruct (String.eqb_spec m "true") as [->|Ht]; [done|].
    destruct (String.eqb_spec m "1") as [->|Hone]; [done|].
    rewrite bool_decide_eq_false_2 by (intros [?|?]; done). simpl.
    destruct (String.eqb_spec m "false") as [->|Hf']; [done|].
    destruct (String.eqb_spec m "0") as [->|Hzero]; [done|].
    rewrite bool_decide_eq_false_2 by (intros [?|?]; done). done.
Qed.

(** The six commands on the field that [NewPlayField 8 8 10] builds. *)
Lemma parseUserCommand_examples_witness :
  parseUserCommand (mkField 8 8 10 (replicate 64 zeroCell)) "2 3" = (2, 3, false, None)
  ∧ parseUserCommand (mkField 8 8 10 (replicate 64 zeroCell)) "8 3"
    = (0, 0, false, Some (WidthTooHigh 8 7)).
Proof.
  destruct (parseUserCommand_examples (mkField 8 8 10 (replicate 64 zeroCell)))
    as (H1 & _ & H3 & _); [reflexivity | reflexivity |].
  split; [exact H1 | exact H3].
Defined.

(** ** Placement of the black holes *)

Lemma count_holes_app cs cs' : count_holes (cs ++ cs') = count_holes cs + count_holes cs'.
Proof. unfold count_holes. rewrite List.filter_app, length_app. lia. Qed.

Lemma count_holes_insert cs (i : nat) c :
  cs !! i = Some c → IsBlackHole c = false →
  count_holes (<[i := setBlackHole c]> cs) = count_holes cs + 1.
Proof.
  intros Hc Hfree. pose proof (lookup_lt_Some _ _ _ Hc) as Hi.
  rewrite insert_take_drop by done.
  rewrite <- (take_drop_middle cs i c Hc) at 3.
  rewrite !count_holes_app. unfold count_holes. simpl. rewrite Hfree. simpl. lia.
Qed.

Lemma same_shape_refl f : same_shape f f.
Proof. by repeat split. Qed.

Lemma placing_start f : placing f f [].
Proof.
  constructor.
  - apply same_shape_refl.
  - constructor.
  - intros p Hp. by apply elem_of_nil in Hp.
  - intros i c0 Hc. rewrite decide_False; [done | apply not_elem_of_nil].
  - simpl. lia.
Qed.

(** Placing one more black hole, at a cell that has none. *)
Lemma placing_step f0 f placed p c :
  placing f0 f placed → 0 ≤ p → Cells f !! Z.to_nat p = Some c → IsBlackHole c = false →
  placing f0 (withCells f (<[Z.to_nat p := setBlackHole c]> (Cells f))) (p :: placed).
Proof.
  intros [Hshape Hnd Hfresh Hcells Hcount] Hp Hc Hfree.
  destruct Hshape as (HW & HH & HQ & Hlen).
  assert (Z.to_nat p < length (Cells f0))%nat as Hlt.
  { rewrite <- Hlen. by eapply lookup_lt_Some. }
  destruct (lookup_lt_is_Some_2 _ _ Hlt) as [c0 Hc0].
  pose proof (Hcells _ _ Hc0) as Hc'. rewrite Hc in Hc'. rewrite Z2Nat.id in Hc' by done.
  assert (p ∉ placed) as Hnew.
  { intros Hin. rewrite decide_True in Hc' by done. injection Hc' as ->. done. }
  rewrite decide_False in Hc' by done. injection Hc' as ->.
  constructor.
  - repeat split; simpl; [done | done | done |]. by rewrite length_insert.
  - by constructor.
  - intros q [->|Hq]%elem_of_cons; [by exists c0 | by apply Hfresh].
  - intros i ci Hci. simpl. destruct (decide (i = Z.to_nat p)) as [->|Hne].
    + rewrite list_lookup_insert_eq by (by eapply lookup_lt_Some).
      rewrite Z2Nat.id by done. rewrite decide_True by left.
      rewrite Hc0 in Hci. by injection Hci as ->.
    + rewrite list_lookup_insert_ne by done. rewrite (Hcells _ _ Hci).
      f_equal. destruct (decide (Z.of_nat i ∈ placed)) as [Hin|Hout].
      * rewrite decide_True; [done | by right].
      * rewrite decide_False; [done|]. intros [Heq|?]%elem_of_cons; [|done]. lia.
  - simpl. rewrite count_holes_insert by done. rewrite Hcount. lia.
Qed.

Section Placement.
Context (rnd : nat → Z) (f0 : playField) (fieldSize maxAttempts : Z).
Context (Hsize : 0 < fieldSize) (Hlen : Z.of_nat (length (Cells f0)) = fieldSize).
Context (Hq : BlackHoleQuantity f0 ≤ GoInt.max_int).

(** The loop of [addBlackHoles], entered as the source enters it (the
    counter [attempts] equal to [blackHoles]): when it ends, the quantity
    asked for has been placed; when it panics, [BlackHoleQuantity*100] has
    wrapped around below [BlackHoleQuantity]. *)
Lemma addBlackHoles_loop_spec fuel : ∀ draw f blackHoles placed,
  placing f0 f placed →
  Z.of_nat (length placed) = blackHoles →
  blackHoles ≤ Z.max 0 (BlackHoleQuantity f0) →
  match addBlackHoles_loop fuel rnd draw f fieldSize maxAttempts blackHoles blackHoles placed with
  | Done (f', placed') =>
      placing f0 f' placed'
      ∧ Z.of_nat (length placed') = Z.max 0 (BlackHoleQuantity f0)
  | Panic _ => BlackHoleQuantity f0 *! 100 < BlackHoleQuantity f0
  | OutOfFuel => True
  end.
Proof using Hsize Hlen Hq.
  induction fuel as [|fuel IH]; intros draw f blackHoles placed Hpl Hn Hle;
    pose proof (pl_shape _ _ _ Hpl) as (HW & HH & HQ & Hl); simpl; rewrite HQ;
    destruct (Z.ltb_spec blackHoles (BlackHoleQuantity f0)) as [Hlt|Hge];
    try done; try (split; [done | lia]).
  unfold Intn. destruct (Z.leb_spec fieldSize 0) as [|_]; [lia|]. rewrite bind_Done.
  pose proof (Z.mod_pos_bound (rnd draw) fieldSize Hsize) as Hpos.
  set (pos := rnd draw `mod` fieldSize) in *.
  destruct (cell_at_in_range (Cells f) pos) as [c Hc]; [lia|].
  rewrite Hc, bind_Done. apply cell_at_Done in Hc as [_ Hc].
  destruct (IsBlackHole c) eqn:Hhole; simpl.
  - (* a collision *)
    destruct (Z.geb_spec blackHoles (BlackHoleQuantity f0 *! 100)) as [Hbudget|_]; [lia|].
    by apply IH.
  - (* a free cell *)
    assert (field_modify f pos setBlackHole
            = Done (withCells f (<[Z.to_nat pos := setBlackHole c]> (Cells f)))) as ->.
    { apply field_modify_Done. exists c. split; [lia | done]. }
    rewrite bind_Done.
    assert (blackHoles +! 1 = blackHoles + 1) as ->.
    { apply add_small. unfold GoInt.in_range, GoInt.min_int, GoInt.max_int in *. lia. }
    apply IH; [apply placing_step; [done | lia | done | done] | simpl; lia | lia].
Qed.

End Placement.

Lemma NewPlayField_inl w h q f :
  NewPlayField w h q = inl f →
  f = mkField w h q (replicate (Z.to_nat (w *! h)) zeroCell)
  ∧ 0 < w ∧ 0 < h ∧ 1 ≤ q ≤ w *! h.
Proof.
  unfold NewPlayField.
  destruct (Z.leb_spec w 0); [discriminate|]. destruct (Z.leb_spec h 0); [discriminate|].
  destruct (Z.ltb_spec q 1); [discriminate|].
  destruct (Z.gtb_spec q (w *! h)); [discriminate|].
  intros [= <-]. repeat split; lia.
Qed.

Lemma count_holes_replicate n : count_holes (replicate n zeroCell) = 0.
Proof. unfold count_holes. induction n as [|n IH]; [done|]. simpl. exact IH. Qed.

(** A field just built by [NewPlayField] (whatever the dimensions asked for)
    is ready for the placement: the slice has [Width*Height] cells as the
    machine computes the product, and no black hole. *)
Lemma NewPlayField_ready w h q f :
  NewPlayField w h q = inl f →
  0 < Width f *! Height f
  ∧ Z.of_nat (length (Cells f)) = Width f *! Height f
  ∧ 1 ≤ BlackHoleQuantity f ≤ GoInt.max_int
  ∧ BlackHoleQuantity f = q
  ∧ count_holes (Cells f) = 0
  ∧ ∀ i c, Cells f !! i = Some c → c = zeroCell.
Proof.
  intros (-> & Hw & Hh & Hq)%NewPlayField_inl. simpl.
  pose proof (wrap_in_range (w * h)) as [_ Hmax]. fold (w *! h) in Hmax.
  split; [lia|]. split; [rewrite length_replicate; lia|]. split; [lia|].
  split; [done|]. split; [apply count_holes_replicate|].
  intros i c [-> _]%lookup_replicate. done.
Qed.

(** [C10] On the field that [NewPlayField] has just built, whatever the
    random source, when [addBlackHoles] returns, exactly [BlackHoleQuantity]
    cells hold a black hole: the flag has been assigned at
    [BlackHoleQuantity] indices, no index twice, and the cells with a black
    hole are the cells at these indices; nothing else of the field has
    changed. *)
Theorem addBlackHoles_exact (w h q : Z) (f : playField) (rnd : nat → Z) (fuel : nat)
    (f' : playField) (placed : list Z) :
  NewPlayField w h q = inl f →
  addBlackHoles_placed fuel rnd f = Done (f', placed) →
  addBlackHoles fuel rnd f = Done f'
  ∧ count_holes (Cells f') = q
  ∧ NoDup placed
  ∧ Z.of_nat (length placed) = q
  ∧ (∀ i c, Cells f' !! i = Some c →
       (IsBlackHole c = true ↔ Z.of_nat i ∈ placed)
       ∧ IsVisible c = false ∧ IsMarked c = false ∧ IsExploded c = false
       ∧ AdjucentBlackHoleQuantity c = 0)
  ∧ same_shape f f'.
Proof.
  intros Hnew Hrun.
  destruct (NewPlayField_ready w h q f Hnew) as (Hsize & Hlen & Hq & HQ & Hzero & Hcells).
  pose proof (addBlackHoles_loop_spec rnd f (Width f *! Height f)
                (BlackHoleQuantity f *! 100) Hsize Hlen ltac:(lia) fuel 0%nat f 0 []
                (placing_start f) eq_refl ltac:(lia)) as Hspec.
  unfold addBlackHoles_placed in Hrun. rewrite Hrun in Hspec.
  destruct Hspec as [[Hshape Hnd Hfresh Hpl Hcount] Hn].
  split; [unfold addBlackHoles, addBlackHoles_placed; by rewrite Hrun|].
  split; [rewrite Hcount, Hzero; lia|]. split; [done|]. split; [lia|]. split; [|done].
  intros i c Hc.
  destruct (lookup_lt_is_Some_2 (Cells f) i) as [c0 Hc0].
  { destruct Hshape as (_ & _ & _ & <-). by eapply lookup_lt_Some. }
  pose proof (Hcells i c0 Hc0) as ->. rewrite (Hpl i zeroCell Hc0) in Hc.
  injection Hc as <-.
  destruct (decide (Z.of_nat i ∈ placed)); simpl; (split; [split; intros ?; done | done]).
Qed.

(** On a 2 x 2 field the source [2, 2, 1, ...] places two black holes, the
    second draw being a collision. *)
Lemma addBlackHoles_exact_witness :
  ∃ f', addBlackHoles 3 (λ n, match n with 2%nat => 1 | _ => 2 end)
                      (mkField 2 2 2 (replicate 4 zeroCell)) = Done f'
        ∧ count_holes (Cells f') = 2.
Proof.
  destruct (addBlackHoles_exact 2 2 2 _ (λ n, match n with 2%nat => 1 | _ => 2 end) 3 _ _
              eq_refl eq_refl) as (Hrun & Hcount & _).
  eexists. split; [exact Hrun | exact Hcount].
Defined.

(** The loop never panics as long as [BlackHoleQuantity*100] is an [int]:
    the counter [attempts] is incremented together with [blackHoles] only,
    and stays below [BlackHoleQuantity]. *)
Lemma addBlackHoles_never_panics (f : playField) (rnd : nat → Z) (fuel : nat) (p : panic) :
  0 < Width f *! Height f →
  Z.of_nat (length (Cells f)) = Width f *! Height f →
  BlackHoleQuantity f * 100 ≤ GoInt.max_int →
  addBlackHoles_placed fuel rnd f ≠ Panic p.
Proof.
  intros Hsize Hlen Hq Hrun.
  assert (BlackHoleQuantity f ≤ GoInt.max_int) as Hq'.
  { unfold GoInt.max_int in *. lia. }
  destruct (Z.le_gt_cases 0 (BlackHoleQuantity f)) as [Hpos|Hneg].
  - pose proof (addBlackHoles_loop_spec rnd f (Width f *! Height f)
                  (BlackHoleQuantity f *! 100) Hsize Hlen Hq' fuel 0%nat f 0 []
                  (placing_start f) eq_refl ltac:(lia)) as Hspec.
    unfold addBlackHoles_placed in Hrun. rewrite Hrun in Hspec.
    rewrite mul_small in Hspec; [lia|].
    unfold GoInt.in_range, GoInt.min_int, GoInt.max_int in *. lia.
  - unfold addBlackHoles_placed in Hrun. destruct fuel; simpl in Hrun;
      (destruct (Z.ltb_spec 0 (BlackHoleQuantity f)); [lia | discriminate]).
Qed.

(** [C3] The retry budget is not enforced. On the 2 x 1 field with two black
    holes to place and a random source that always delivers 0, the first draw
    places a black hole and every later draw is a collision: after any number
    of iterations - also far beyond the 200 collisions of the budget - the
    loop has neither panicked nor returned. *)
Theorem addBlackHoles_budget_not_enforced :
  NewPlayField 2 1 2 = inl (mkField 2 1 2 [zeroCell; zeroCell])
  ∧ ∀ fuel, addBlackHoles_placed fuel (λ _, 0) (mkField 2 1 2 [zeroCell; zeroCell]) = OutOfFuel.
Proof.
  split; [reflexivity|]. intros [|fuel]; [reflexivity|].
  assert (∀ n draw,
    addBlackHoles_loop n (λ _, 0) draw (mkField 2 1 2 [setBlackHole zeroCell; zeroCell])
                       2 200 1 1 [0] = OutOfFuel) as Hloop.
  { induction n as [|n IH]; intros draw; [reflexivity|]. exact (IH (S draw)). }
  exact (Hloop fuel 1%nat).
Qed.

(** The placement does return for some random sources: with the source that
    delivers 0, 1, 2, ... no draw is a collision. *)
Lemma addBlackHoles_loop_returns (size maxAttempts q : Z) (n : nat) :
  ∀ (k : Z) (f : playField) (placed : list Z) (fuel : nat),
    Z.of_nat (length (Cells f)) = size → BlackHoleQuantity f = q →
    0 ≤ k ≤ q → q ≤ size → q ≤ GoInt.max_int → Z.to_nat (q - k) = n → (n ≤ fuel)%nat →
    (∀ i c, k ≤ Z.of_nat i → Cells f !! i = Some c → IsBlackHole c = false) →
    ∃ r, addBlackHoles_loop fuel (λ d, Z.of_nat d) (Z.to_nat k) f size maxAttempts k k placed
         = Done r.
Proof.
  induction n as [|n IH]; intros k f placed fuel Hlen HQ Hk Hq Hmax Hn Hfuel Hfree.
  - exists (f, placed). destruct fuel; simpl; rewrite HQ;
      (destruct (Z.ltb_spec k q); [lia | done]).
  - destruct fuel as [|fuel]; [lia|]. simpl. rewrite HQ.
    destruct (Z.ltb_spec k q) as [_|]; [|lia].
    unfold Intn. destruct (Z.leb_spec size 0); [lia|]. rewrite bind_Done.
    rewrite Z2Nat.id, Z.mod_small by lia.
    destruct (cell_at_in_range (Cells f) k) as [c Hc]; [lia|].
    rewrite Hc, bind_Done. apply cell_at_Done in Hc as [_ Hc].
    rewrite (Hfree (Z.to_nat k) c) by (done || lia). simpl.
    assert (field_modify f k setBlackHole
            = Done (withCells f (<[Z.to_nat k := setBlackHole c]> (Cells f)))) as ->.
    { apply field_modify_Done. exists c. split; [lia | done]. }
    rewrite bind_Done.
    assert (k +! 1 = k + 1) as ->.
    { apply add_small. unfold GoInt.in_range, GoInt.min_int, GoInt.max_int in *. lia. }
    replace (S (Z.to_nat k)) with (Z.to_nat (k + 1)) by lia.
    apply IH; simpl; try lia.
    + by rewrite length_insert.
    + intros i c' Hi Hc'. rewrite list_lookup_insert_ne in Hc' by lia. apply (Hfree i c'); [lia | done].
Qed.

Lemma addBlackHoles_returns (w h q : Z) (f : playField) (fuel : nat) :
  NewPlayField w h q = inl f → (Z.to_nat q ≤ fuel)%nat →
  ∃ f', addBlackHoles fuel (λ d, Z.of_nat d) f = Done f'.
Proof.
  intros Hnew Hfuel.
  destruct (NewPlayField_ready w h q f Hnew) as (Hsize & Hlen & Hq & HQ & _ & Hcells).
  pose proof (NewPlayField_inl w h q f Hnew) as (_ & _ & _ & Hle).
  assert (Width f *! Height f = w *! h) as Hwh.
  { apply NewPlayField_inl in Hnew as (-> & _). done. }
  destruct (addBlackHoles_loop_returns (Width f *! Height f) (BlackHoleQuantity f *! 100) q
              (Z.to_nat q) 0 f [] fuel) as ([f' placed] & Hrun);
    try done; try lia; try (f_equal; lia).
  - intros i c _ Hc. by rewrite (Hcells i c Hc).
  - exists f'. unfold addBlackHoles, addBlackHoles_placed. change (Z.to_nat 0) with 0%nat in Hrun.
    by rewrite Hrun.
Qed.

(** ** Adjacency counters *)

Lemma for_each_upto_inv {St} (P : Z → St → Prop) (n : Z) (body : Z → St → outcome St) (s : St) :
  P 0 s →
  (∀ i s, 0 ≤ i < n → P i s → ∃ s', body i s = Done s' ∧ P (i + 1) s') →
  ∃ s', for_each (upto n) body s = Done s' ∧ P (Z.max 0 n) s'.
Proof.
  unfold upto, seqZ. intros Hs Hbody.
  assert (∀ k m s, (m + k ≤ Z.to_nat n)%nat → P (Z.of_nat m) s →
            ∃ s', for_each ((λ i : nat, Z.of_nat i + 0) <$> seq m k) body s = Done s'
                  ∧ P (Z.of_nat (m + k)) s') as Hgen.
  { induction k as [|k IH]; intros m s0 Hle Hs0.
    - exists s0. rewrite Nat.add_0_r. done.
    - destruct (Hbody (Z.of_nat m) s0) as (s1 & H1 & HP1); [lia | done |].
      simpl. rewrite Z.add_0_r, H1, bind_Done.
      destruct (IH (S m) s1) as (s2 & H2 & HP2); [lia | |].
      + replace (Z.of_nat (S m)) with (Z.of_nat m + 1) by lia. done.
      + exists s2. split; [done|]. replace (m + S k)%nat with (S m + k)%nat by lia. done. }
  destruct (Hgen (Z.to_nat n) 0%nat s) as (s' & Hrun & HP); [lia | done |].
  exists s'. split; [done|]. replace (Z.max 0 n) with (Z.of_nat (0 + Z.to_nat n)) by lia. done.
Qed.

Lemma bumped_hole k c : IsBlackHole (bumped k c) = IsBlackHole c.
Proof. induction k as [|k IH]; [done|]. exact IH. Qed.

Lemma bumped_flags k c :
  IsVisible (bumped k c) = IsVisible c ∧ IsMarked (bumped k c) = IsMarked c
  ∧ IsExploded (bumped k c) = IsExploded c.
Proof. induction k as [|k IH]; [done|]. exact IH. Qed.

Lemma bumped_counter k c :
  -128 ≤ AdjucentBlackHoleQuantity c →
  AdjucentBlackHoleQuantity c + Z.of_nat k ≤ 127 →
  AdjucentBlackHoleQuantity (bumped k c) = AdjucentBlackHoleQuantity c + Z.of_nat k.
Proof.
  induction k as [|k IH]; intros Hlo Hhi; [simpl; lia|].
  change (AdjucentBlackHoleQuantity (bumped (S k) c))
    with (GoInt.incr8 (AdjucentBlackHoleQuantity (bumped k c))).
  rewrite IH by lia. unfold GoInt.incr8. rewrite wrap8_small; lia.
Qed.

Lemma length_filter_b2n {A} (p : A → bool) (l : list A) :
  length (List.filter p l) = foldr (λ x n, (b2n (p x) + n)%nat) 0%nat l.
Proof. induction l as [|x l IH]; [done|]. simpl. destruct (p x); simpl; by rewrite IH. Qed.

Lemma adjacent_holes_le f w h : (adjacent_holes f w h ≤ 8)%nat.
Proof. unfold adjacent_holes. etrans; [apply List.filter_length_le | done]. Qed.

Lemma inb_in_bounds f w h : inb f w h = true ↔ in_bounds f w h.
Proof. unfold inb, in_bounds. rewrite !andb_true_iff, !Z.leb_le, !Z.ltb_lt. tauto. Qed.

Lemma inb_false f w h : ¬ in_bounds f w h → inb f w h = false.
Proof. rewrite <- inb_in_bounds. by destruct (inb f w h). Qed.

Lemma hole_at_false_out f w h : ¬ in_bounds f w h → hole_at f w h = false.
Proof. intros Hout. unfold hole_at. by rewrite inb_false. Qed.

Lemma hole_at_same f g w h : same_holes f g → hole_at g w h = hole_at f w h.
Proof.
  intros (HW & HH & Hc). unfold hole_at, inb, cell_of. rewrite HW, HH. f_equal.
  specialize (Hc (Z.to_nat (h * Width f + w))).
  destruct (Cells g !! _), (Cells f !! _); simpl in Hc; congruence.
Qed.

Lemma adjacent_holes_same f g w h : same_holes f g → adjacent_holes g w h = adjacent_holes f w h.
Proof.
  intros Hs. unfold adjacent_holes. f_equal. apply List.filter_ext.
  intros [w' h']. by apply hole_at_same.
Qed.

(** *** One cell *)

Section CellPass.
Context (g : playField) (Hwf : wf_field g).
Context (w h : Z) (Hb : in_bounds g w h) (c : playCell) (Hc : cell_of g w h = Some c).

Local Abbreviation pass := (passed g w h c).

Lemma passed_0 : pass 0%nat = g.
Proof.
  unfold passed. simpl. rewrite list_insert_id by exact Hc. by destruct g.
Qed.

Lemma passed_lookup k i :
  IsBlackHole <$> (Cells (pass k) !! i) = IsBlackHole <$> (Cells g !! i).
Proof.
  unfold passed. simpl. destruct (decide (i = Z.to_nat (h * Width g + w))) as [->|Hne].
  - rewrite list_lookup_insert_eq by (by eapply lookup_lt_Some).
    unfold cell_of in Hc. rewrite Hc. simpl. by rewrite bumped_hole.
  - by rewrite list_lookup_insert_ne.
Qed.

Lemma same_holes_passed k : same_holes g (pass k).
Proof. split; [done|]. split; [done|]. apply passed_lookup. Qed.

(** One of the eight blocks, looking at the neighbour [(w', h')]. *)
Lemma countNeighbour_passed k guard neighbourPos w' h' :
  (guard = true → in_bounds g w' h' ∧ neighbourPos = h' * Width g + w') →
  (guard = false → ¬ in_bounds g w' h') →
  countNeighbour guard neighbourPos (h * Width g + w) (pass k)
  = Done (pass (k + b2n (hole_at g w' h'))).
Proof.
  intros Hyes Hno. unfold countNeighbour. destruct guard.
  - destruct (Hyes eq_refl) as [Hb' ->]. clear Hyes Hno.
    pose proof (index_bounds g w' h' Hb') as Hi'.
    pose proof (index_bounds g w h Hb) as Hi.
    destruct (cell_of_in_bounds g Hwf w' h' Hb') as [c' Hc'].
    pose proof (passed_lookup k (Z.to_nat (h' * Width g + w'))) as Hsame.
    unfold cell_of in Hc'. rewrite Hc' in Hsame.
    destruct (Cells (pass k) !! Z.to_nat (h' * Width g + w')) as [c''|] eqn:Hc''; [|done].
    injection Hsame as Hsame.
    assert (cell_at (Cells (pass k)) (h' * Width g + w') = Done c'') as ->.
    { apply cell_at_Done. split; [lia | done]. }
    rewrite bind_Done, Hsame.
    assert (hole_at g w' h' = IsBlackHole c') as ->.
    { unfold hole_at, cell_of. rewrite Hc', (proj2 (inb_in_bounds g w' h') Hb'). done. }
    destruct (IsBlackHole c'); simpl; [|by rewrite Nat.add_0_r].
    apply field_modify_Done. exists (bumped k c). split; [lia|]. split.
    + unfold passed. simpl. apply list_lookup_insert_eq. by eapply lookup_lt_Some.
    + unfold passed, withCells. simpl. rewrite list_insert_insert_eq.
      by rewrite Nat.add_1_r.
  - rewrite (hole_at_false_out g w' h') by auto. simpl. by rewrite Nat.add_0_r.
Qed.

End CellPass.

(** *** The indices around a position *)

Ltac int_range :=
  unfold GoInt.in_range, GoInt.min_int, GoInt.max_int in *; lia.

Section Around.
Context (g : playField) (Hwf : wf_field g) (w h : Z) (Hb : in_bounds g w h).

Lemma around_facts :
  0 ≤ h * Width g + w < Width g * Height g
  ∧ Width g ≤ Width g * Height g ∧ Height g ≤ Width g * Height g
  ∧ Width g * Height g ≤ GoInt.max_int ∧ 0 < Width g ∧ 0 < Height g.
Proof.
  pose proof (index_bounds g w h Hb). destruct Hwf as [HW HH Hsz _].
  repeat split; try lia; nia.
Qed.

Lemma width_pred : Width g -! 1 = Width g - 1.
Proof. pose proof around_facts. apply sub_small. int_range. Qed.

Lemma height_pred : Height g -! 1 = Height g - 1.
Proof. pose proof around_facts. apply sub_small. int_range. Qed.

Lemma around_left : 0 < w → h * Width g + w -! 1 = h * Width g + (w - 1).
Proof. intros. pose proof around_facts. rewrite sub_small by int_range. lia. Qed.

Lemma around_right : w < Width g - 1 → h * Width g + w +! 1 = h * Width g + (w + 1).
Proof. intros. pose proof around_facts. rewrite add_small by int_range. lia. Qed.

Lemma around_up : 0 < h → h * Width g + w -! Width g = (h - 1) * Width g + w.
Proof. intros. pose proof around_facts. rewrite sub_small by int_range. lia. Qed.

Lemma around_down : h < Height g - 1 → h * Width g + w +! Width g = (h + 1) * Width g + w.
Proof.
  intros. pose proof around_facts. destruct Hb.
  assert ((h + 1) * Width g ≤ (Height g - 1) * Width g) by nia.
  rewrite add_small by int_range. lia.
Qed.

Lemma around_left_up :
  0 < w → 0 < h → h * Width g + w -! Width g -! 1 = (h - 1) * Width g + (w - 1).
Proof.
  intros. pose proof around_facts. rewrite around_up by done.
  rewrite sub_small; [lia|]. destruct Hb. assert (0 ≤ (h - 1) * Width g) by nia. int_range.
Qed.

Lemma around_left_down :
  0 < w → h < Height g - 1 → h * Width g + w +! Width g -! 1 = (h + 1) * Width g + (w - 1).
Proof.
  intros. pose proof around_facts. rewrite around_down by done.
  rewrite sub_small; [lia|]. destruct Hb.
  assert (0 ≤ (h + 1) * Width g ≤ (Height g - 1) * Width g) by nia. int_range.
Qed.

Lemma around_right_up :
  w < Width g - 1 → 0 < h → h * Width g + w -! Width g +! 1 = (h - 1) * Width g + (w + 1).
Proof.
  intros. pose proof around_facts. rewrite around_up by done.
  rewrite add_small; [lia|]. destruct Hb.
  assert (0 ≤ (h - 1) * Width g ≤ (Height g - 1) * Width g) by nia. int_range.
Qed.

Lemma around_right_down :
  w < Width g - 1 → h < Height g - 1 →
  h * Width g + w +! Width g +! 1 = (h + 1) * Width g + (w + 1).
Proof.
  intros. pose proof around_facts. rewrite around_down by done.
  rewrite add_small; [lia|]. destruct Hb.
  assert (0 ≤ (h + 1) * Width g ≤ (Height g - 1) * Width g) by nia. int_range.
Qed.

End Around.

Lemma Width_passed g w h c k : Width (passed g w h c k) = Width g.
Proof. reflexivity. Qed.

Lemma Height_passed g w h c k : Height (passed g w h c k) = Height g.
Proof. reflexivity. Qed.

(** The side conditions of one block: under its guard the neighbour is
    inside the field and the index computed is its index; when the guard
    fails the neighbour is outside. *)
Ltac block_side g Hwf w h Hb :=
  let Hg := fresh "Hg" in
  unfold in_bounds in Hb |- *; intros Hg;
  repeat match type of Hg with
         | context [?a >? ?b] => destruct (Z.gtb_spec a b)
         | context [?a <? ?b] => destruct (Z.ltb_spec a b)
         end;
  simpl in Hg; try discriminate Hg;
  first [ lia
        | split; [lia|];
          first [ apply (around_left g Hwf w h Hb) | apply (around_right g Hwf w h Hb)
                | apply (around_up g Hwf w h Hb) | apply (around_down g Hwf w h Hb)
                | apply (around_left_up g Hwf w h Hb) | apply (around_left_down g Hwf w h Hb)
                | apply (around_right_up g Hwf w h Hb)
                | apply (around_right_down g Hwf w h Hb) ]; lia ].

Ltac block_step g Hwf w h Hb c Hc w' h' :=
  rewrite ?Width_passed, ?Height_passed,
          ?(width_pred g Hwf w h Hb), ?(height_pred g Hwf w h Hb);
  rewrite (countNeighbour_passed g Hwf w h Hb c Hc _ _ _ w' h');
  [ rewrite ?bind_Done | block_side g Hwf w h Hb | block_side g Hwf w h Hb ].

(** The eight blocks add to the counter of the cell the number of black
    holes around it. *)
Lemma addAdjacentBlackHoles_cell_passed g w h c k :
  wf_field g → in_bounds g w h → cell_of g w h = Some c →
  addAdjacentBlackHoles_cell h w (passed g w h c k)
  = Done (passed g w h c (k + adjacent_holes g w h)).
Proof.
  intros Hwf Hb Hc. unfold addAdjacentBlackHoles_cell. cbv zeta.
  rewrite !Width_passed, (index_exact g Hwf w h Hb).
  pose proof (index_bounds g w h Hb) as Hi.
  assert (cell_at (Cells (passed g w h c k)) (h * Width g + w) = Done (bumped k c)) as ->.
  { apply cell_at_Done. split; [lia|]. unfold passed. simpl.
    apply list_lookup_insert_eq. by eapply lookup_lt_Some. }
  rewrite bind_Done.
  block_step g Hwf w h Hb c Hc (w - 1) h.
  block_step g Hwf w h Hb c Hc (w + 1) h.
  block_step g Hwf w h Hb c Hc w (h - 1).
  block_step g Hwf w h Hb c Hc w (h + 1).
  block_step g Hwf w h Hb c Hc (w - 1) (h - 1).
  block_step g Hwf w h Hb c Hc (w - 1) (h + 1).
  block_step g Hwf w h Hb c Hc (w + 1) (h - 1).
  block_step g Hwf w h Hb c Hc (w + 1) (h + 1).
  do 2 f_equal. unfold adjacent_holes. rewrite length_filter_b2n. simpl. lia.
Qed.

(** *** The two loops *)

Lemma counted_wf f n g : wf_field f → counted f n g → wf_field g.
Proof.
  intros [HW HH Hsz Hlen] [(HW' & HH' & _ & Hl) _].
  constructor; rewrite ?HW', ?HH', ?Hl; done.
Qed.

Lemma counted_same_holes f n g : wf_field f → counted f n g → same_holes f g.
Proof.
  intros Hwf [(HW & HH & _ & Hl) Hcells]. split; [done|]. split; [done|]. intros i.
  destruct (Cells f !! i) as [c0|] eqn:Hc0.
  - destruct (position_of_index f Hwf i) as (w & h & Hb & <-); [by eapply lookup_lt_Some|].
    pose proof (Hcells w h c0 Hb Hc0) as Hg. unfold cell_of in Hg. rewrite HW in Hg.
    rewrite Hg. simpl. f_equal. case_decide; [apply bumped_hole | done].
  - rewrite lookup_ge_None_2; [done|]. rewrite Hl. by apply lookup_ge_None.
Qed.

(** The body of the loops at the next position. *)
Lemma counted_step f g w h :
  wf_field f → in_bounds f w h → counted f (h * Width f + w) g →
  ∃ g', addAdjacentBlackHoles_cell h w g = Done g' ∧ counted f (h * Width f + w + 1) g'.
Proof.
  intros Hwf Hb Hcnt.
  pose proof (counted_wf f _ g Hwf Hcnt) as Hwfg.
  pose proof (counted_same_holes f _ g Hwf Hcnt) as Hholes.
  destruct Hcnt as [(HW & HH & HQ & Hl) Hcells].
  assert (in_bounds g w h) as Hbg by (unfold in_bounds; by rewrite HW, HH).
  destruct (cell_of_in_bounds f Hwf w h Hb) as [c0 Hc0].
  pose proof (Hcells w h c0 Hb Hc0) as Hc. rewrite decide_False in Hc by lia.
  pose proof (addAdjacentBlackHoles_cell_passed g w h c0 0 Hwfg Hbg Hc) as Hrun.
  rewrite (passed_0 g Hwfg w h Hbg c0 Hc) in Hrun. simpl in Hrun.
  rewrite (adjacent_holes_same f g w h Hholes) in Hrun.
  eexists. split; [exact Hrun|]. split.
  - repeat split; simpl; [done | done | done |]. by rewrite length_insert.
  - intros w' h' c1 Hb' Hc1. unfold cell_of, passed. simpl. rewrite HW.
    destruct (decide (h' * Width f + w' = h * Width f + w)) as [Heq|Hne].
    + destruct (index_inj f w h w' h' Hb Hb') as [-> ->]; [done|].
      rewrite list_lookup_insert_eq.
      * rewrite decide_True by lia. rewrite Hc0 in Hc1. by injection Hc1 as ->.
      * rewrite Hl. unfold cell_of in Hc0. by eapply lookup_lt_Some.
    + rewrite list_lookup_insert_ne.
      * pose proof (Hcells w' h' c1 Hb' Hc1) as Hg. unfold cell_of in Hg. rewrite HW in Hg.
        rewrite Hg. f_equal. repeat case_decide; try done; lia.
      * pose proof (index_bounds f w h Hb). pose proof (index_bounds f w' h' Hb'). lia.
Qed.

Lemma addAdjacentBlackHoles_counted f :
  wf_field f →
  ∃ f', addAdjacentBlackHoles f = Done f' ∧ counted f (Width f * Height f) f'.
Proof.
  intros Hwf. unfold addAdjacentBlackHoles.
  destruct (for_each_upto_inv (λ h g, counted f (h * Width f) g ∧ Width g = Width f)
              (Height f)
              (λ height field,
                 for_each (upto (Width field))
                          (λ width field, addAdjacentBlackHoles_cell height width field) field)
              f) as (f' & Hrun & Hcnt & _).
  - split; [|done]. split; [apply same_shape_refl|]. intros w h c0 Hb Hc0.
    rewrite decide_False; [done|]. destruct Hb. nia.
  - intros h g Hh [Hg HWg]. rewrite HWg.
    destruct (for_each_upto_inv (λ w g, counted f (h * Width f + w) g)
                (Width f) (λ width field, addAdjacentBlackHoles_cell h width field) g)
      as (g' & Hrow & Hcnt').
    + by rewrite Z.add_0_r.
    + intros w g1 Hw Hg1. rewrite Z.add_assoc. by apply counted_step.
    + exists g'. split; [exact Hrow|]. destruct Hwf as [HW _ _ _].
      rewrite Z.max_r in Hcnt' by lia. split.
      * replace ((h + 1) * Width f) with (h * Width f + Width f) by lia. done.
      * by destruct Hcnt' as [(? & _) _].
  - exists f'. split; [exact Hrun|]. destruct Hwf as [_ HH _ _].
    rewrite Z.max_r in Hcnt by lia. by rewrite Z.mul_comm.
Qed.

(** [C9] On a well-formed field whose counters are all zero (a field just
    built, with its black holes placed), [addAdjacentBlackHoles] returns, and
    afterwards the counter of every cell is the number of black holes among
    the neighbours - left, right, up, down and the four diagonals - that lie
    inside the field, a number from 0 to 8; nothing else has changed. *)
Theorem addAdjacentBlackHoles_spec (f : playField) :
  wf_field f →
  (∀ i c, Cells f !! i = Some c → AdjucentBlackHoleQuantity c = 0) →
  ∃ f', addAdjacentBlackHoles f = Done f'
    ∧ same_shape f f'
    ∧ ∀ w h, in_bounds f w h →
        ∃ c c', cell_of f w h = Some c ∧ cell_of f' w h = Some c'
          ∧ AdjucentBlackHoleQuantity c' = Z.of_nat (adjacent_holes f' w h)
          ∧ adjacent_holes f' w h = adjacent_holes f w h
          ∧ 0 ≤ AdjucentBlackHoleQuantity c' ≤ 8
          ∧ IsBlackHole c' = IsBlackHole c ∧ IsVisible c' = IsVisible c
          ∧ IsMarked c' = IsMarked c ∧ IsExploded c' = IsExploded c.
Proof.
  intros Hwf Hzero. destruct (addAdjacentBlackHoles_counted f Hwf) as (f' & Hrun & Hcnt).
  pose proof (counted_same_holes f _ f' Hwf Hcnt) as Hholes.
  exists f'. split; [done|]. split; [apply Hcnt|]. intros w h Hb.
  destruct (cell_of_in_bounds f Hwf w h Hb) as [c Hc].
  destruct Hcnt as [_ Hcells]. pose proof (Hcells w h c Hb Hc) as Hc'.
  pose proof (index_bounds f w h Hb). rewrite decide_True in Hc' by lia.
  pose proof (adjacent_holes_le f w h) as Hle.
  pose proof (Hzero _ c Hc) as Hz.
  pose proof (bumped_counter (adjacent_holes f w h) c ltac:(lia) ltac:(lia)) as Hcount.
  destruct (bumped_flags (adjacent_holes f w h) c) as (Hv & Hm & He).
  exists c, (bumped (adjacent_holes f w h) c).
  rewrite (adjacent_holes_same f f' w h Hholes), Hcount, Hz, bumped_hole.
  repeat split; try done; lia.
Qed.

(** The field 3 x 3 with black holes in two opposite corners. *)
Lemma addAdjacentBlackHoles_spec_witness :
  ∃ f', addAdjacentBlackHoles
          (mkField 3 3 2 [zeroCell; zeroCell; setBlackHole zeroCell;
                          zeroCell; zeroCell; zeroCell;
                          setBlackHole zeroCell; zeroCell; zeroCell]) = Done f'.
Proof.
  destruct (addAdjacentBlackHoles_spec
              (mkField 3 3 2 [zeroCell; zeroCell; setBlackHole zeroCell;
                              zeroCell; zeroCell; zeroCell;
                              setBlackHole zeroCell; zeroCell; zeroCell]))
    as (f' & Hrun & _).
  - constructor; simpl; [lia | lia | unfold GoInt.max_int; lia | reflexivity].
  - intros i c Hc. repeat (destruct i as [|i]; [by injection Hc as <-|]). done.
  - by exists f'.
Defined.

(** ** Flood reveal *)

Lemma size_list_to_set_le (l : list (Z * Z)) :
  (size (list_to_set l : gset (Z * Z)) ≤ length l)%nat.
Proof.
  induction l as [|x l IH]; [by rewrite list_to_set_nil, size_empty|].
  rewrite list_to_set_cons, size_union_alt, size_singleton. simpl.
  pose proof (subseteq_size (list_to_set l ∖ {[x]}) (list_to_set l : gset (Z * Z))
                ltac:(set_solver)). lia.
Qed.

Lemma Reach_prepend f s p q : edge f s p → Reach f p q → Reach f s q.
Proof.
  intros Hsp Hpq. induction Hpq as [|q r _ IH Hqr].
  - eapply reach_step; [apply reach_start | done].
  - by eapply reach_step.
Qed.

Lemma Revealed_prepend f s p q : edge f s p → Revealed f p q → Revealed f s q.
Proof. intros Hsp (r & Hr & Hrq). exists r. split; [by eapply Reach_prepend | done]. Qed.

Lemma processed_mono f prev V prev' V' p :
  prev ⊆ prev' → V ⊆ V' → processed f prev V p → processed f prev' V' p.
Proof. intros Hp HV Hproc q Hq. destruct (Hproc q Hq). split; set_solver. Qed.

Lemma handled_nothing f s prev V : handled f s (λ _, False) prev V prev V.
Proof. repeat split; try done; auto. Qed.

Lemma handled_skip f s (Q : Z * Z → Prop) prev V :
  (∀ q, Q q → ¬ edge f s q) → handled f s Q prev V prev V.
Proof.
  intros Hne. split; [done|]. split; [done|]. split; [auto|]. split; [auto|].
  split; [|auto]. intros q HQ He. destruct (Hne q HQ He).
Qed.

Lemma handled_compose f s Q1 Q2 prev V prev1 V1 prev2 V2 :
  handled f s Q1 prev V prev1 V1 → handled f s Q2 prev1 V1 prev2 V2 →
  handled f s (λ q, Q1 q ∨ Q2 q) prev V prev2 V2.
Proof.
  intros (Hp1 & HV1 & HsV1 & Hsp1 & HQ1 & Hpr1) (Hp2 & HV2 & HsV2 & Hsp2 & HQ2 & Hpr2).
  split; [set_solver|]. split; [set_solver|]. split; [|split; [|split]].
  - intros q Hq. destruct (HsV2 q Hq) as [?|?]; [auto | by right].
  - intros q Hq. destruct (Hsp2 q Hq) as [?|?]; [auto | by right].
  - intros q [Hq|Hq] He.
    + destruct (HQ1 q Hq He). split; set_solver.
    + by apply HQ2.
  - intros p Hp. destruct (Hpr2 p Hp) as [Hp1'|?]; [|by right].
    destruct (Hpr1 p Hp1') as [?|Hproc]; [by left|]. right.
    by eapply processed_mono.
Qed.

Lemma handled_flooded f s Q prev V prev' V' :
  handled f s Q prev V prev' V' → (∀ q, orth s q → Q q) → flooded f s prev V prev' V'.
Proof.
  intros (Hp & HV & HsV & Hsp & HQ & Hpr) Hall. repeat split; try done.
  - apply HQ; [|done]. apply Hall. apply H.
  - apply HQ; [|done]. apply Hall. apply H.
Qed.

Section Flood.
Context (f : playField) (Hwf : wf_field f).

Lemma shown_start : shown f ∅ f.
Proof.
  split; [apply same_shape_refl|]. intros w h c _ Hc.
  rewrite decide_False; [done | set_solver].
Qed.

Lemma shown_wf V g : shown f V g → wf_field g.
Proof.
  intros [(HW & HH & _ & Hl) _]. destruct Hwf as [? ? ? Hlen].
  constructor; rewrite ?HW, ?HH, ?Hl; done.
Qed.

(** The cell of [g] at a position, from the cell of [f]. *)
Lemma shown_cell V g w h :
  shown f V g → in_bounds f w h →
  ∃ c c', cell_of f w h = Some c ∧ cell_of g w h = Some c'
          ∧ c' = (if decide ((w, h) ∈ V) then setVisible c else c)
          ∧ IsBlackHole c' = IsBlackHole c
          ∧ AdjucentBlackHoleQuantity c' = AdjucentBlackHoleQuantity c.
Proof.
  intros [_ Hcells] Hb. destruct (cell_of_in_bounds f Hwf w h Hb) as [c Hc].
  exists c. eexists. split; [done|]. split; [by apply Hcells|]. split; [done|].
  by case_decide.
Qed.

(** Making one more cell visible. *)
Lemma shown_reveal V g w h :
  shown f V g → in_bounds f w h →
  ∃ g', field_modify g (h * Width f + w) setVisible = Done g'
        ∧ shown f ({[(w, h)]} ∪ V) g'.
Proof.
  intros Hshown Hb. destruct (shown_cell V g w h Hshown Hb) as (c & c' & Hc & Hc' & Hcc & _).
  destruct Hshown as [(HW & HH & HQ & Hl) Hcells].
  pose proof (index_bounds f w h Hb) as Hi.
  unfold cell_of in Hc'. rewrite HW in Hc'.
  exists (withCells g (<[Z.to_nat (h * Width f + w) := setVisible c']> (Cells g))). split.
  - apply field_modify_Done. exists c'. split; [lia | done].
  - split; [repeat split; simpl; [done | done | done | by rewrite length_insert]|].
    intros w' h' c1 Hb' Hc1. unfold cell_of. simpl. rewrite HW.
    destruct (decide ((w', h') = (w, h))) as [[= -> ->]|Hne].
    + rewrite list_lookup_insert_eq by (by eapply lookup_lt_Some).
      rewrite decide_True by set_solver. rewrite Hc in Hc1. injection Hc1 as <-.
      rewrite Hcc. by case_decide.
    + rewrite list_lookup_insert_ne.
      * pose proof (Hcells w' h' c1 Hb' Hc1) as Hg. unfold cell_of in Hg.
        rewrite HW in Hg. rewrite Hg. f_equal.
        destruct (decide ((w', h') ∈ V)).
        -- rewrite decide_True; [done | set_solver].
        -- rewrite decide_False; [done | set_solver].
      * intros Heq. apply Hne. pose proof (index_bounds f w' h' Hb').
        destruct (index_inj f w h w' h' Hb Hb') as [-> ->]; [lia | done].
Qed.

Lemma positions_in_bounds w h : in_bounds f w h → (w, h) ∈ positions f.
Proof.
  intros Hb. unfold positions. apply elem_of_list_to_set, list_elem_of_fmap.
  exists (h * Width f + w). pose proof (index_bounds f w h Hb). destruct Hb as [Hw Hh].
  split; [|apply elem_of_seqZ; lia]. f_equal.
  - rewrite Z.add_comm, Z.mod_add by lia. by rewrite Z.mod_small.
  - rewrite Z.add_comm, Z.div_add by lia. rewrite Z.div_small by done. lia.
Qed.

Lemma size_positions : (size (positions f) ≤ Z.to_nat (Width f * Height f))%nat.
Proof.
  unfold positions. etrans; [apply size_list_to_set_le|].
  rewrite length_fmap, length_seqZ. done.
Qed.

Lemma unvisited_decrease (prev : gset (Z * Z)) w h :
  in_bounds f w h → (w, h) ∉ prev →
  (size (positions f ∖ ({[(w, h)]} ∪ prev)) < size (positions f ∖ prev))%nat.
Proof.
  intros Hb Hnew. apply subset_size. pose proof (positions_in_bounds w h Hb).
  set_solver.
Qed.

End Flood.

Lemma updateFieldVisibility_S (n : nat) (w h : Z) (g : playField) (prev : gset (Z * Z)) :
  updateFieldVisibility (S n) w h (g, prev) =
   (currentCell ← cell_at (Cells g) (h *! Width g +! w);
    if AdjucentBlackHoleQuantity currentCell =? 0 then
      st ← visitNeighbour (updateFieldVisibility n) (w >? 0)
                          (h *! Width g +! w -! 1) (w -! 1, h) (g, prev);
      st ← visitNeighbour (updateFieldVisibility n) (w <? Width g -! 1)
                          (h *! Width g +! w +! 1) (w +! 1, h) st;
      st ← visitNeighbour (updateFieldVisibility n) (h >? 0)
                          (h *! Width g +! w -! Width g) (w, h -! 1) st;
      visitNeighbour (updateFieldVisibility n) (h <? Height g -! 1)
                     (h *! Width g +! w +! Width g) (w, h +! 1) st
    else Done (g, prev)).
Proof. reflexivity. Qed.

Section Coordinates.
Context (f : playField) (Hwf : wf_field f) (w h : Z) (Hb : in_bounds f w h).

Lemma coordinates_stepped :
  w -! 1 = w - 1 ∧ w +! 1 = w + 1 ∧ h -! 1 = h - 1 ∧ h +! 1 = h + 1.
Proof.
  pose proof (around_facts f Hwf w h Hb). destruct Hb.
  rewrite !sub_small, !add_small by int_range. done.
Qed.

End Coordinates.

Section Traversal.
Context (f : playField) (Hwf : wf_field f).

Lemma unvisited_mono (prev prev' : gset (Z * Z)) :
  prev ⊆ prev' → (size (positions f ∖ prev') ≤ size (positions f ∖ prev))%nat.
Proof. intros Hsub. apply subseteq_size. set_solver. Qed.

(** One of the four blocks, at the position [(w, h)] of a cell with a zero
    counter, looking at the neighbour [(w', h')]. *)
Lemma visitNeighbour_spec n w h guard neighbourPos w' h' g prev V :
  visit_spec f n → in_bounds f w h → is_zero f (w, h) → shown f V g →
  (size (positions f ∖ prev) ≤ n)%nat →
  (guard = true →
     in_bounds f w' h' ∧ neighbourPos = h' * Width f + w' ∧ orth (w, h) (w', h')) →
  (guard = false → ¬ in_bounds f w' h') →
  ∃ g' prev' V',
    visitNeighbour (updateFieldVisibility n) guard neighbourPos (w', h') (g, prev)
    = Done (g', prev')
    ∧ shown f V' g' ∧ handled f (w, h) (λ q, q = (w', h')) prev V prev' V'.
Proof.
  intros IH Hb Hzero Hshown Hsize Hyes Hno. unfold visitNeighbour. cbn [fst snd].
  destruct guard.
  - destruct (Hyes eq_refl) as (Hb' & -> & Horth). clear Hyes Hno.
    destruct (shown_cell f Hwf V g w' h' Hshown Hb') as (c & c' & Hc & Hc' & _ & Hhole & _).
    pose proof (index_bounds f w' h' Hb') as Hi.
    assert (cell_at (Cells g) (h' * Width f + w') = Done c') as ->.
    { apply cell_at_Done. split; [lia|]. unfold cell_of in Hc'.
      destruct Hshown as [(HW & _) _]. by rewrite HW in Hc'. }
    rewrite bind_Done, Hhole. destruct (IsBlackHole c) eqn:Hfree; simpl.
    + (* a black hole: left as it is *)
      exists g, prev, V. split; [done|]. split; [done|]. apply handled_skip.
      intros q -> (_ & _ & _ & _ & c2 & Hc2 & Hfree2). simpl in Hc2. congruence.
    + assert (edge f (w, h) (w', h')) as Hedge.
      { repeat split; try done; try apply Hb; try apply Hb'. by exists c. }
      destruct (shown_reveal f Hwf V g w' h' Hshown Hb') as (g1 & -> & Hshown1).
      rewrite bind_Done. destruct (decide ((w', h') ∈ prev)) as [Hseen|Hnew].
      * (* visited already *)
        exists g1, prev, ({[(w', h')]} ∪ V). split; [done|]. split; [done|].
        split; [done|]. split; [set_solver|]. split; [|split; [auto|split; [|auto]]].
        -- intros q [->%elem_of_singleton|?]%elem_of_union; [right | by left].
           exists (w, h). split; [apply reach_start | done].
        -- intros q -> _. split; [set_solver | done].
      * (* a new position: the recursive call *)
        destruct (IH w' h' g1 ({[(w', h')]} ∪ prev) ({[(w', h')]} ∪ V) Hb' Hshown1)
          as (g' & prev' & V' & Hrun & Hshown' & Hflood).
        { pose proof (unvisited_decrease f Hwf prev w' h' Hb' Hnew). lia. }
        cbn [fst snd]. exists g', prev', V'. split; [done|]. split; [done|].
        destruct Hflood as (Hp & HV & HsV & Hsp & Hproc & Hpr).
        split; [set_solver|]. split; [set_solver|]. split; [|split; [|split]].
        -- intros q Hq. destruct (HsV q Hq) as [[->%elem_of_singleton|?]%elem_of_union|Hr].
           ++ right. exists (w, h). split; [apply reach_start | done].
           ++ by left.
           ++ right. by eapply Revealed_prepend.
        -- intros q Hq. destruct (Hsp q Hq) as [[->%elem_of_singleton|?]%elem_of_union|Hr].
           ++ right. eapply reach_step; [apply reach_start | done].
           ++ by left.
           ++ right. by eapply Reach_prepend.
        -- intros q -> _. split; set_solver.
        -- intros p Hp'. destruct (Hpr p Hp') as [[->%elem_of_singleton|?]%elem_of_union|?];
             [by right | by left | by right].
  - exists g, prev, V. split; [done|]. split; [done|]. apply handled_skip.
    intros q -> (_ & _ & _ & Hb' & _). by destruct (Hno eq_refl).
Qed.

End Traversal.

(** The side conditions of one block of the traversal: under its guard the
    neighbour is inside the field, the index computed is its index and it is
    an orthogonal neighbour; when the guard fails it is outside. *)
Ltac flood_side f Hwf w h Hb :=
  let Hg := fresh "Hg" in
  intros Hg;
  repeat match type of Hg with
         | context [?a >? ?b] => destruct (Z.gtb_spec a b)
         | context [?a <? ?b] => destruct (Z.ltb_spec a b)
         end;
  try discriminate Hg;
  first [ unfold in_bounds in *; lia
        | split; [unfold in_bounds in *; lia|]; split;
          [ first [ apply (around_left f Hwf w h Hb) | apply (around_right f Hwf w h Hb)
                  | apply (around_up f Hwf w h Hb) | apply (around_down f Hwf w h Hb) ]; lia
          | unfold orth; cbn [fst snd];
            first [ left; reflexivity | right; left; reflexivity
                  | right; right; left; reflexivity | right; right; right; reflexivity ] ] ].

Section Visit.
Context (f : playField) (Hwf : wf_field f).

(** Every call inside the field returns when it has more fuel than there
    are positions left to visit, and has flooded from its position. *)
Lemma visit_all n : visit_spec f n.
Proof.
  induction n as [|n IH]; intros w h g prev V Hb Hshown Hsize; [lia|].
  rewrite updateFieldVisibility_S.
  destruct (shown_cell f Hwf V g w h Hshown Hb) as (c & c' & Hc & Hc' & _ & _ & Hadj).
  pose proof Hshown as [(HW & HH & _) _]. rewrite HW, HH.
  rewrite (index_exact f Hwf w h Hb), (width_pred f Hwf w h Hb), (height_pred f Hwf w h Hb).
  destruct (coordinates_stepped f Hwf w h Hb) as (-> & -> & -> & ->).
  pose proof (index_bounds f w h Hb) as Hi.
  assert (cell_at (Cells g) (h * Width f + w) = Done c') as ->.
  { apply cell_at_Done. split; [lia|]. unfold cell_of in Hc'. by rewrite HW in Hc'. }
  rewrite bind_Done, Hadj. destruct (Z.eqb_spec (AdjucentBlackHoleQuantity c) 0) as [Hz|Hnz].
  - assert (is_zero f (w, h)) as Hzero by (by exists c).
    (* Left *)
    destruct (visitNeighbour_spec f Hwf n w h (w >? 0) (h * Width f + w -! 1)
                (w - 1) h g prev V IH Hb Hzero Hshown ltac:(lia))
      as (g1 & prev1 & V1 & -> & Hs1 & Hh1); [flood_side f Hwf w h Hb..|].
    rewrite bind_Done. pose proof (unvisited_mono f Hwf prev prev1 (proj1 Hh1)) as Hm1.
    (* Right *)
    destruct (visitNeighbour_spec f Hwf n w h (w <? Width f - 1) (h * Width f + w +! 1)
                (w + 1) h g1 prev1 V1 IH Hb Hzero Hs1 ltac:(lia))
      as (g2 & prev2 & V2 & -> & Hs2 & Hh2); [flood_side f Hwf w h Hb..|].
    rewrite bind_Done. pose proof (unvisited_mono f Hwf prev1 prev2 (proj1 Hh2)) as Hm2.
    (* Up *)
    destruct (visitNeighbour_spec f Hwf n w h (h >? 0) (h * Width f + w -! Width f)
                w (h - 1) g2 prev2 V2 IH Hb Hzero Hs2 ltac:(lia))
      as (g3 & prev3 & V3 & -> & Hs3 & Hh3); [flood_side f Hwf w h Hb..|].
    rewrite bind_Done. pose proof (unvisited_mono f Hwf prev2 prev3 (proj1 Hh3)) as Hm3.
    (* Down *)
    destruct (visitNeighbour_spec f Hwf n w h (h <? Height f - 1)
                (h * Width f + w +! Width f) w (h + 1) g3 prev3 V3 IH Hb Hzero Hs3
                ltac:(lia))
      as (g4 & prev4 & V4 & -> & Hs4 & Hh4); [flood_side f Hwf w h Hb..|].
    exists g4, prev4, V4. split; [done|]. split; [done|].
    pose proof (handled_compose _ _ _ _ _ _ _ _ _ _
                  (handled_compose _ _ _ _ _ _ _ _ _ _
                     (handled_compose _ _ _ _ _ _ _ _ _ _ Hh1 Hh2) Hh3) Hh4) as Hall.
    eapply handled_flooded; [exact Hall|]. unfold orth. cbn [fst snd].
    intros q [-> | [-> | [-> | ->]]]; tauto.
  - exists g, prev, V. split; [done|]. split; [done|].
    eapply (handled_flooded f (w, h) (λ _, True)); [|done].
    apply handled_skip. intros q _ (_ & (c2 & Hc2 & Hz2) & _). simpl in Hc2. congruence.
Qed.

End Visit.

(** *** The region in the words of the specification *)

Lemma Reach_in_bounds f s p : in_bounds f s.1 s.2 → Reach f s p → in_bounds f p.1 p.2.
Proof. intros Hs Hp. induction Hp as [|p q _ _ (_ & _ & _ & Hq & _)]; done. Qed.

Lemma Region_Reach f s p :
  in_bounds f s.1 s.2 → is_zero f s → Region f s p → Reach f s p ∧ is_zero f p.
Proof.
  intros Hs Hz Hp. induction Hp as [|p q _ [IHr IHz] Horth Hq Hzq Hfq];
    [split; [apply reach_start | done]|].
  split; [|done]. eapply reach_step; [exact IHr|].
  split; [exact (Reach_in_bounds f s p Hs IHr)|].
  split; [done|]. split; [done|]. split; done.
Qed.

Lemma Reach_Region f s p : Reach f s p → is_zero f p → Region f s p.
Proof.
  intros Hp. induction Hp as [|p q _ IH (_ & Hzp & Horth & Hq & Hfq)]; intros Hz.
  - apply region_start.
  - eapply region_step; [by apply IH | done..].
Qed.

Lemma Revealed_NextToRegion f s q :
  in_bounds f s.1 s.2 → is_zero f s → Revealed f s q ↔ NextToRegion f s q.
Proof.
  intros Hs Hz. split.
  - intros (p & Hp & (_ & Hzp & Horth & Hq & Hfq)). exists p.
    split; [by apply Reach_Region | done].
  - intros (p & Hp & Horth & Hq & Hfq). destruct (Region_Reach f s p Hs Hz Hp) as [Hr Hzp].
    exists p. split; [done|]. split; [exact (Reach_in_bounds f s p Hs Hr)|].
    split; [done|]. split; [done|]. split; done.
Qed.

Lemma Region_next f s q : Region f s q → q ≠ s → NextToRegion f s q.
Proof. intros Hq Hne. destruct Hq as [|p q Hp Horth Hb Hz Hf]; [done|]. by exists p. Qed.

Lemma orth_sym p q : orth p q → orth q p.
Proof.
  destruct p as [pw ph], q as [qw qh]. unfold orth. cbn [fst snd].
  intros [H|[H|[H|H]]]; injection H as -> ->;
    [right; left | left | right; right; right | right; right; left]; f_equal; lia.
Qed.

Lemma orth_irrefl p : ¬ orth p p.
Proof.
  destruct p as [pw ph]. unfold orth. cbn [fst snd].
  intros [H|[H|[H|H]]]; injection H; lia.
Qed.

(** The start is next to its region exactly when it is no black hole and has
    an orthogonal neighbour with a zero counter that is no black hole. *)
Lemma NextToRegion_start f s :
  NextToRegion f s s ↔
  in_bounds f s.1 s.2 ∧ is_free f s
  ∧ ∃ n, orth s n ∧ in_bounds f n.1 n.2 ∧ is_zero f n ∧ is_free f n.
Proof.
  split.
  - intros (p & Hp & Horth & Hb & Hf). split; [done|]. split; [done|].
    destruct Hp as [|p' p Hp' Horth' Hbp Hzp Hfp]; [by destruct (orth_irrefl s)|].
    exists p. split; [by apply orth_sym | done].
  - intros (Hb & Hf & n & Horth & Hbn & Hzn & Hfn). exists n.
    split; [|split; [by apply orth_sym | done]].
    eapply region_step; [apply region_start | done..].
Qed.

(** *** What a flood reveal from a fresh set of visited positions does *)

Lemma flood_result (f : playField) (w h : Z) (fuel : nat) (prev : gset (Z * Z)) :
  wf_field f → in_bounds f w h → (Z.to_nat (Width f * Height f) < fuel)%nat →
  ∃ g prev' V',
    updateFieldVisibility fuel w h (f, prev) = Done (g, prev')
    ∧ shown f V' g ∧ flooded f (w, h) prev ∅ prev' V'.
Proof.
  intros Hwf Hb Hfuel. apply (visit_all f Hwf fuel w h f prev ∅ Hb (shown_start f Hwf)).
  first [pose proof (size_positions f Hwf) | pose proof (size_positions f)].
  pose proof (subseteq_size (positions f ∖ prev) (positions f) ltac:(set_solver)). lia.
Qed.

Lemma flooded_exactly f s prev' V' q :
  flooded f s ∅ ∅ prev' V' → q ∈ V' ↔ Revealed f s q.
Proof.
  intros (_ & _ & HsV & _ & Hproc & Hpr). split.
  - intros Hq. destruct (HsV q Hq) as [?|?]; [set_solver | done].
  - intros (p & Hp & He).
    assert (processed f prev' V' p) as Hdone; [|by destruct (Hdone q He)].
    clear q He. induction Hp as [|p r _ IH He]; [done|].
    destruct (IH r He) as [_ Hr]. destruct (Hpr r Hr) as [?|?]; [set_solver | done].
Qed.

(** [C5] On a well-formed field, from any position inside it and whatever
    the set of positions visited so far - the empty set of a top-level call
    in particular -, the flood reveal returns as soon as the depth allowed to
    the recursion exceeds the number of positions of the field: every
    recursive call adds a position of the field to the set, so the positions
    left to visit bound the depth, zero counters in a cycle or not. The field
    keeps its shape and the set only grows. *)
Theorem updateFieldVisibility_terminates (f : playField) (w h : Z) (prev : gset (Z * Z))
    (fuel : nat) :
  wf_field f → in_bounds f w h → (Z.to_nat (Width f * Height f) < fuel)%nat →
  ∃ g prev', updateFieldVisibility fuel w h (f, prev) = Done (g, prev')
             ∧ same_shape f g ∧ prev ⊆ prev'.
Proof.
  intros Hwf Hb Hfuel.
  destruct (flood_result f w h fuel prev Hwf Hb Hfuel) as (g & prev' & V' & Hrun & Hs & Hfl).
  exists g, prev'. split; [done|]. split; [apply Hs | apply Hfl].
Qed.

(** The field 2 x 2 without any black hole around: its four cells with a zero
    counter form a cycle. *)
Lemma updateFieldVisibility_terminates_witness :
  ∃ g prev', updateFieldVisibility 5 0 0 (mkField 2 2 1 (replicate 4 zeroCell), ∅)
             = Done (g, prev').
Proof.
  destruct (updateFieldVisibility_terminates (mkField 2 2 1 (replicate 4 zeroCell)) 0 0 ∅ 5)
    as (g & prev' & Hrun & _).
  - constructor; simpl; [lia | lia | unfold GoInt.max_int; lia | reflexivity].
  - unfold in_bounds; simpl; lia.
  - simpl. lia.
  - by exists g, prev'.
Defined.

(** [C4] The flood reveal as [main] calls it: at the top level, on a
    well-formed field, at a position whose counter is zero and whose cell
    [main] has just made visible with [updateFieldCell]. The call returns and
    changes no flag but [IsVisible] and no counter. A cell is visible
    afterwards exactly when it was visible before, or belongs to the region
    of the start (the start and the cells joined to it by orthogonal steps
    through cells with a zero counter that are no black hole), or is an
    orthogonal neighbour of a cell of the region and no black hole. So the
    whole region and its border without black holes are visible afterwards;
    the visibility of a black hole is left as it was; and a marked cell of
    the border or the region is made visible like any other, its mark
    kept. *)
Theorem updateFieldVisibility_reveals (f : playField) (w h : Z) (fuel : nat) :
  wf_field f → in_bounds f w h → is_zero f (w, h) →
  (∃ c, cell_of f w h = Some c ∧ IsVisible c = true) →
  (Z.to_nat (Width f * Height f) < fuel)%nat →
  ∃ g prev',
    updateFieldVisibility fuel w h (f, ∅) = Done (g, prev')
    ∧ same_shape f g
    ∧ ∀ w' h' c, in_bounds f w' h' → cell_of f w' h' = Some c →
        ∃ c', cell_of g w' h' = Some c'
          ∧ IsBlackHole c' = IsBlackHole c
          ∧ IsMarked c' = IsMarked c
          ∧ IsExploded c' = IsExploded c
          ∧ AdjucentBlackHoleQuantity c' = AdjucentBlackHoleQuantity c
          ∧ (IsVisible c' = true ↔
             IsVisible c = true
             ∨ Region f (w, h) (w', h') ∨ NextToRegion f (w, h) (w', h'))
          ∧ (Region f (w, h) (w', h') → IsVisible c' = true)
          ∧ (NextToRegion f (w, h) (w', h') → IsVisible c' = true)
          ∧ (IsBlackHole c = true → IsVisible c' = IsVisible c)
          ∧ (IsMarked c = true →
             Region f (w, h) (w', h') ∨ NextToRegion f (w, h) (w', h') →
             IsVisible c' = true ∧ IsMarked c' = true).
Proof.
  intros Hwf Hb Hzero (c0 & Hc0 & Hvis0) Hfuel.
  destruct (flood_result f w h fuel ∅ Hwf Hb Hfuel) as (g & prev' & V' & Hrun & Hs & Hfl).
  exists g, prev'. split; [done|]. split; [apply Hs|].
  intros w' h' c Hb' Hc. destruct Hs as [_ Hcells].
  pose proof (Hcells w' h' c Hb' Hc) as Hc'.
  pose proof (flooded_exactly f (w, h) prev' V' (w', h') Hfl) as HV.
  rewrite (Revealed_NextToRegion f (w, h) (w', h') Hb Hzero) in HV.
  set (c' := if decide ((w', h') ∈ V') then setVisible c else c) in Hc'.
  assert (IsVisible c' = true ↔ IsVisible c = true ∨ NextToRegion f (w, h) (w', h'))
    as Hiff.
  { rewrite <- HV. unfold c'. case_decide; simpl; [by split; auto|].
    split; [by left|]. by intros [?|?]. }
  assert (Region f (w, h) (w', h') → IsVisible c' = true) as Hreg.
  { intros Hr. apply Hiff. destruct (decide ((w', h') = (w, h))) as [Heq|Hne].
    - left. injection Heq as -> ->. congruence.
    - right. by apply Region_next. }
  assert (NextToRegion f (w, h) (w', h') → IsVisible c' = true) as Hnext
    by (intros Hn; apply Hiff; by right).
  exists c'. split; [done|].
  split; [unfold c'; by case_decide|]. split; [unfold c'; by case_decide|].
  split; [unfold c'; by case_decide|]. split; [unfold c'; by case_decide|].
  split; [|split; [done|]; split; [done|]; split].
  - split.
    + intros Hv. apply Hiff in Hv as [?|?]; auto.
    + intros [Hv|[Hr|Hn]]; [apply Hiff; by left | by apply Hreg | by apply Hnext].
  - intros Hhole. unfold c'. case_decide as Hin; [|done]. apply HV in Hin.
    destruct Hin as (_ & _ & _ & _ & c2 & Hc2 & Hfree). simpl in Hc2. congruence.
  - intros Hm [Hr|Hn]; (split; [auto|]); unfold c'; by case_decide.
Qed.

(** [corner_field] once the player has revealed its upper left corner, whose
    counter is zero and whose region is the corner alone: after the flood
    reveal the corner and its two neighbours, the border, are visible. *)
Lemma updateFieldVisibility_reveals_witness :
  ∃ f1 g prev' c00 c10 c01,
    updateFieldCell corner_field 0 0 false = Done f1
    ∧ updateFieldVisibility 10 0 0 (f1, ∅) = Done (g, prev')
    ∧ cell_of g 0 0 = Some c00 ∧ IsVisible c00 = true
    ∧ cell_of g 1 0 = Some c10 ∧ IsVisible c10 = true
    ∧ cell_of g 0 1 = Some c01 ∧ IsVisible c01 = true.
Proof.
  set (f1 := withCells corner_field (<[0%nat := setVisible zeroCell]> (Cells corner_field))).
  destruct (updateFieldVisibility_reveals f1 0 0 10) as (g & prev' & Hrun & _ & Hcells).
  - constructor; simpl; [lia | lia | unfold GoInt.max_int; lia | reflexivity].
  - unfold in_bounds; simpl; lia.
  - eexists; split; reflexivity.
  - eexists; split; reflexivity.
  - simpl. lia.
  - assert (in_bounds f1 0 0 ∧ in_bounds f1 1 0 ∧ in_bounds f1 0 1) as (B00 & B10 & B01)
      by (unfold in_bounds; simpl; lia).
    destruct (Hcells 0 0 _ B00 eq_refl) as (c00 & H00 & _ & _ & _ & _ & _ & V00 & _).
    destruct (Hcells 1 0 _ B10 eq_refl) as (c10 & H10 & _ & _ & _ & _ & _ & _ & V10 & _).
    destruct (Hcells 0 1 _ B01 eq_refl) as (c01 & H01 & _ & _ & _ & _ & _ & _ & V01 & _).
    exists f1, g, prev', c00, c10, c01.
    split; [reflexivity|]. split; [done|].
    split; [done|]. split; [apply V00, region_start|].
    split; [done|]. split.
    + apply V10. exists (0, 0). split; [apply region_start|].
      split; [right; left; reflexivity|]. split; [done|]. eexists; split; reflexivity.
    + split; [done|]. apply V01. exists (0, 0). split; [apply region_start|].
      split; [right; right; right; reflexivity|]. split; [done|].
      eexists; split; reflexivity.
Defined.

(** ** The reveal at an explosion *)

Lemma for_each_app {St} (l1 l2 : list Z) (body : Z → St → outcome St) (s : St) :
  for_each (l1 ++ l2) body s = (s' ← for_each l1 body s; for_each l2 body s').
Proof.
  revert s. induction l1 as [|i l1 IH]; intros s; [done|].
  simpl. destruct (body i s) as [s1| |]; [|done..]. rewrite !bind_Done. apply IH.
Qed.

Lemma upto_split (n k : Z) : 0 ≤ k < n → upto n = upto k ++ k :: seqZ (k + 1) (n - k - 1).
Proof.
  intros Hk. unfold upto. replace n with (k + (n - k)) at 1 by lia.
  rewrite seqZ_app by lia. f_equal. rewrite Z.add_0_l.
  rewrite (seqZ_cons k (n - k)) by lia. reflexivity.
Qed.

(** A loop whose body panics at the index [k]. *)
Lemma for_each_upto_panic {St} (P : Z → St → Prop) (n k : Z) (e : panic)
    (body : Z → St → outcome St) (s : St) :
  0 ≤ k < n → P 0 s →
  (∀ i s, 0 ≤ i < k → P i s → ∃ s', body i s = Done s' ∧ P (i + 1) s') →
  (∀ s, P k s → body k s = Panic e) →
  for_each (upto n) body s = Panic e.
Proof.
  intros Hk Hs Hbody Hpanic. rewrite (upto_split n k Hk), for_each_app.
  destruct (for_each_upto_inv P k body s Hs Hbody) as (s' & -> & Hs').
  rewrite bind_Done. simpl. rewrite Z.max_r in Hs' by lia. by rewrite (Hpanic s' Hs').
Qed.

Section Loss.
Context (f : playField) (Hwf : wf_field f).

Lemma lit_wf n g : lit f n g → wf_field g.
Proof.
  intros [(HW & HH & _ & Hl) _]. destruct Hwf as [? ? ? Hlen].
  constructor; rewrite ?HW, ?HH, ?Hl; done.
Qed.

Lemma lit_start : lit f 0 f.
Proof.
  split; [apply same_shape_refl|]. intros w h c Hb Hc.
  rewrite decide_False; [done|]. pose proof (index_bounds f w h Hb). lia.
Qed.

(** The body of the loops at the next position. *)
Lemma lit_step g w h :
  in_bounds f w h → lit f (h * Width f + w) g →
  ∃ g', updateFieldCell g w h false = Done g' ∧ lit f (h * Width f + w + 1) g'.
Proof.
  intros Hb Hlit. pose proof (lit_wf _ g Hlit) as Hwfg.
  destruct Hlit as [(HW & HH & HQ & Hl) Hcells].
  assert (in_bounds g w h) as Hbg by (unfold in_bounds; by rewrite HW, HH).
  destruct (cell_of_in_bounds f Hwf w h Hb) as [c Hc].
  pose proof (Hcells w h c Hb Hc) as Hcg. rewrite decide_False in Hcg by lia.
  unfold updateFieldCell. rewrite (field_modify_in_bounds g w h setVisible c Hwfg Hbg Hcg).
  eexists. split; [done|]. split.
  - repeat split; simpl; [done | done | done |]. by rewrite length_insert.
  - intros w' h' c1 Hb' Hc1. unfold cell_of. simpl. rewrite HW.
    destruct (decide (h' * Width f + w' = h * Width f + w)) as [Heq|Hne].
    + destruct (index_inj f w h w' h' Hb Hb') as [-> ->]; [done|].
      rewrite list_lookup_insert_eq.
      * rewrite decide_True by lia. rewrite Hc in Hc1. by injection Hc1 as ->.
      * rewrite Hl. unfold cell_of in Hc. by eapply lookup_lt_Some.
    + rewrite list_lookup_insert_ne.
      * pose proof (Hcells w' h' c1 Hb' Hc1) as Hg. unfold cell_of in Hg.
        rewrite HW in Hg. rewrite Hg. f_equal. repeat case_decide; try done; lia.
      * pose proof (index_bounds f w h Hb). pose proof (index_bounds f w' h' Hb'). lia.
Qed.

(** One row of the reveal. *)
Lemma lit_row g h :
  0 ≤ h < Height f → lit f (h * Width f) g →
  ∃ g', for_each (upto (Width f)) (λ w field, updateFieldCell field w h false) g = Done g'
        ∧ lit f ((h + 1) * Width f) g'.
Proof.
  intros Hh Hlit.
  destruct (for_each_upto_inv (λ w g, lit f (h * Width f + w) g) (Width f)
              (λ w field, updateFieldCell field w h false) g) as (g' & Hrun & Hlit').
  - by rewrite Z.add_0_r.
  - intros w g1 Hw Hg1. rewrite Z.add_assoc. by apply lit_step.
  - exists g'. split; [done|]. destruct Hwf as [HW _ _ _].
    rewrite Z.max_r in Hlit' by lia.
    replace ((h + 1) * Width f) with (h * Width f + Width f) by lia. done.
Qed.

(** On a field at least as high as wide the reveal returns, but has made
    visible the first [Width] rows only. *)
Lemma forceTotalVisibility_rows :
  Width f ≤ Height f →
  ∃ g, forceTotalVisibility f = Done g ∧ same_shape f g
       ∧ ∀ w h c, in_bounds f w h → cell_of f w h = Some c →
           cell_of g w h = Some (if decide (h < Width f) then setVisible c else c).
Proof.
  intros Hle. unfold forceTotalVisibility.
  destruct (for_each_upto_inv (λ h g, lit f (h * Width f) g ∧ Width g = Width f)
              (Width f)
              (λ h field, for_each (upto (Width field))
                                   (λ w field, updateFieldCell field w h false) field)
              f) as (g & Hrun & [Hshape Hcells] & _).
  - split; [apply lit_start | done].
  - intros h g Hh [Hlit HWg]. rewrite HWg.
    destruct (lit_row g h ltac:(lia) Hlit) as (g' & Hrow & Hlit').
    exists g'. split; [done|]. split; [done|]. by destruct Hlit' as [(? & _) _].
  - exists g. split; [done|]. split; [done|]. intros w h c Hb Hc.
    rewrite (Hcells w h c Hb Hc). destruct Hwf as [HW _ _ _], Hb as [Hw Hh].
    rewrite Z.max_r by lia. f_equal. repeat case_decide; try done; nia.
Qed.

(** On a field wider than high the reveal runs out of the slice. *)
Lemma forceTotalVisibility_panics :
  Height f < Width f → forceTotalVisibility f = Panic IndexOutOfRange.
Proof.
  intros Hlt. unfold forceTotalVisibility. destruct Hwf as [HW HH Hsz Hlen].
  apply (for_each_upto_panic (λ h g, lit f (h * Width f) g ∧ Width g = Width f)
           (Width f) (Height f)).
  - lia.
  - split; [apply lit_start | done].
  - intros h g Hh [Hlit HWg]. rewrite HWg.
    destruct (lit_row g h ltac:(lia) Hlit) as (g' & Hrow & Hlit').
    exists g'. split; [done|]. split; [done|]. by destruct Hlit' as [(? & _) _].
  - intros g [[(HWg & HHg & _ & Hl) _] _]. rewrite HWg.
    rewrite (upto_split (Width f) 0) by lia. simpl.
    unfold updateFieldCell, field_modify, cell_modify. rewrite HWg.
    rewrite mul_small, add_small by int_range.
    rewrite cell_at_out; [done|]. rewrite Hl. lia.
Qed.

End Loss.

(** [C1] The reveal at an explosion does not reach every cell. On the field
    1 wide and 2 high with its black hole in the upper cell, the command
    ["0 0"] makes the black hole explode, and after the reveal the lower cell
    is still not visible: both loops of the reveal run to [Width]. *)
Theorem loss_reveal_skips_rows :
  startGame 1 (λ _, 0) 1 2 1 = Done (inl tall_field)
  ∧ wf_field tall_field
  ∧ ∃ g, turn 0 tall_field "0 0" = Done (g, Exploded)
         ∧ in_bounds g 0 1
         ∧ cell_of g 0 1 = Some (mkCell false false false false 1).
Proof.
  split; [reflexivity|]. split.
  { constructor; simpl; [lia | lia | unfold GoInt.max_int; lia | reflexivity]. }
  eexists. split; [vm_compute; reflexivity|]. split; [unfold in_bounds; simpl; lia|].
  reflexivity.
Qed.

(** [C2] The reveal at an explosion indexes outside of the slice. On the
    field 2 wide and 1 high with its black hole in the left cell, the command
    ["0 0"] makes the black hole explode and the reveal panics: its outer
    loop comes to row 1 of a field that has row 0 only. *)
Theorem loss_reveal_out_of_range :
  startGame 1 (λ _, 0) 2 1 1 = Done (inl wide_field)
  ∧ wf_field wide_field
  ∧ turn 0 wide_field "0 0" = Panic IndexOutOfRange.
Proof.
  split; [reflexivity|]. split.
  { constructor; simpl; [lia | lia | unfold GoInt.max_int; lia | reflexivity]. }
  vm_compute. reflexivity.
Qed.

(** ** What the game never undoes *)

Lemma cell_le_refl c : cell_le c c.
Proof. repeat split; auto. Qed.

Lemma cell_le_trans c1 c2 c3 : cell_le c1 c2 → cell_le c2 c3 → cell_le c1 c3.
Proof.
  intros (Hh1 & Ha1 & Hv1 & Hm1 & He1 & Hx1) (Hh2 & Ha2 & Hv2 & Hm2 & He2 & Hx2).
  split; [congruence|]. split; [congruence|]. split; [auto|]. split; [auto|].
  split; [auto|]. intros He3. destruct (Hx2 He3) as [He|?]; [|by right].
  destruct (Hx1 He) as [?|[Hv Hb]]; [by left|]. right. split; [auto | congruence].
Qed.

Lemma cell_le_setVisible c : cell_le c (setVisible c).
Proof. repeat split; auto. Qed.

Lemma cell_le_setMarked c : cell_le c (setMarked c).
Proof. repeat split; auto. Qed.

Lemma cell_le_setExploded c :
  IsVisible c = true → IsBlackHole c = true → cell_le c (setExploded c).
Proof. intros Hv Hb. repeat split; auto. Qed.

Lemma grows_refl f : grows f f.
Proof. split; [apply same_shape_refl|]. intros i c Hc. exists c. split; [done | apply cell_le_refl]. Qed.

Lemma grows_trans f g k : grows f g → grows g k → grows f k.
Proof.
  intros [(HW & HH & HQ & Hl) Hfg] [(HW' & HH' & HQ' & Hl') Hgk]. split.
  - repeat split; congruence.
  - intros i c Hc. destruct (Hfg i c Hc) as (c1 & Hc1 & Hle1).
    destruct (Hgk i c1 Hc1) as (c2 & Hc2 & Hle2). exists c2.
    split; [done | by eapply cell_le_trans].
Qed.

(** An update of one cell that only sets a flag. *)
Lemma grows_modify f i upd f' :
  field_modify f i upd = Done f' →
  (∀ c, Cells f !! Z.to_nat i = Some c → cell_le c (upd c)) →
  grows f f'.
Proof.
  intros (c & Hi & Hc & ->)%field_modify_Done Hupd. split.
  - repeat split; simpl; try done. by rewrite length_insert.
  - intros j cj Hcj. simpl. destruct (decide (j = Z.to_nat i)) as [->|Hne].
    + rewrite list_lookup_insert_eq by (by eapply lookup_lt_Some).
      rewrite Hc in Hcj. injection Hcj as <-. eexists. split; [done | by apply Hupd].
    + rewrite list_lookup_insert_ne by done. exists cj. split; [done | apply cell_le_refl].
Qed.

Lemma for_each_rel {St} (R : St → St → Prop) (l : list Z) (body : Z → St → outcome St) :
  (∀ s, R s s) → (∀ s1 s2 s3, R s1 s2 → R s2 s3 → R s1 s3) →
  (∀ i s s', body i s = Done s' → R s s') →
  ∀ s s', for_each l body s = Done s' → R s s'.
Proof.
  intros Hrefl Htrans Hbody. induction l as [|i l IH]; intros s s' Hrun.
  - injection Hrun as <-. apply Hrefl.
  - simpl in Hrun. apply bind_Done_inv in Hrun as (s1 & H1 & Hrest).
    eapply Htrans; [by eapply Hbody | by apply IH].
Qed.

Lemma updateFieldCell_grows f w h m g : updateFieldCell f w h m = Done g → grows f g.
Proof.
  unfold updateFieldCell. destruct m; intros Hrun; eapply grows_modify; try exact Hrun;
    intros c _; [apply cell_le_setMarked | apply cell_le_setVisible].
Qed.

Lemma checkFieldBlackHole_grows f w h g b :
  checkFieldBlackHole f w h = Done (g, b) → grows f g.
Proof.
  unfold checkFieldBlackHole. intros (c & Hc & Hrun)%bind_Done_inv.
  apply cell_at_Done in Hc as [_ Hc].
  destruct (IsVisible c && IsBlackHole c) eqn:Hvb.
  - apply bind_Done_inv in Hrun as (g' & Hmod & [= <- <-]).
    eapply grows_modify; [exact Hmod|]. intros c' Hc'. rewrite Hc in Hc'. injection Hc' as <-.
    apply andb_true_iff in Hvb as [? ?]. by apply cell_le_setExploded.
  - injection Hrun as <- <-. apply grows_refl.
Qed.

Lemma forceTotalVisibility_grows f g : forceTotalVisibility f = Done g → grows f g.
Proof.
  unfold forceTotalVisibility.
  apply (for_each_rel grows); [apply grows_refl | apply grows_trans|].
  intros h s s'. apply (for_each_rel grows); [apply grows_refl | apply grows_trans|].
  intros w s1 s2. apply updateFieldCell_grows.
Qed.

Lemma visitNeighbour_grows (self : Z → Z → playField * gset (Z * Z) → outcome (playField * gset (Z * Z)))
    (guard : bool) (neighbourPos : Z) (pos : Z * Z) (g : playField)
    (prev : gset (Z * Z)) (g' : playField) (prev' : gset (Z * Z)) :
  (∀ w h g1 p1 g2 p2, self w h (g1, p1) = Done (g2, p2) → grows g1 g2) →
  visitNeighbour self guard neighbourPos pos (g, prev) = Done (g', prev') → grows g g'.
Proof.
  intros Hself. unfold visitNeighbour. cbn [fst snd]. destruct guard.
  - intros (c & Hc & Hrun)%bind_Done_inv. destruct (IsBlackHole c); simpl in Hrun.
    + injection Hrun as <- <-. apply grows_refl.
    + apply bind_Done_inv in Hrun as (g1 & Hmod & Hrun).
      assert (grows g g1) as Hg1.
      { eapply grows_modify; [exact Hmod|]. intros c' _. apply cell_le_setVisible. }
      destruct (decide (pos ∈ prev)).
      * injection Hrun as <- <-. done.
      * eapply grows_trans; [exact Hg1 | by eapply Hself].
  - intros [= <- <-]. apply grows_refl.
Qed.

Lemma updateFieldVisibility_grows fuel :
  ∀ (w h : Z) (g : playField) (prev : gset (Z * Z)) (g' : playField) (prev' : gset (Z * Z)),
  updateFieldVisibility fuel w h (g, prev) = Done (g', prev') → grows g g'.
Proof.
  induction fuel as [|fuel IH]; intros w h g prev g' prev' Hrun; [discriminate|].
  rewrite updateFieldVisibility_S in Hrun.
  apply bind_Done_inv in Hrun as (c & _ & Hrun).
  destruct (AdjucentBlackHoleQuantity c =? 0).
  - apply bind_Done_inv in Hrun as ([g1 p1] & H1 & Hrun).
    apply bind_Done_inv in Hrun as ([g2 p2] & H2 & Hrun).
    apply bind_Done_inv in Hrun as ([g3 p3] & H3 & H4).
    eapply grows_trans; [by eapply visitNeighbour_grows|].
    eapply grows_trans; [by eapply visitNeighbour_grows|].
    eapply grows_trans; by eapply visitNeighbour_grows.
  - injection Hrun as <- <-. apply grows_refl.
Qed.

(** The ways a turn can end. *)
Lemma turn_inv fuel f line g r :
  turn fuel f line = Done (g, r) →
  grows f g
  ∧ match r with
    | Rejected e => g = f ∧ ∃ w h m, parseUserCommand f line = (w, h, m, Some e)
    | Exploded => ∃ w h m f1 f2,
        parseUserCommand f line = (w, h, m, None)
        ∧ updateFieldCell f w h m = Done f1
        ∧ checkFieldBlackHole f1 w h = Done (f2, true)
        ∧ forceTotalVisibility f2 = Done g
    | _ => ∃ w h m f1,
        parseUserCommand f line = (w, h, m, None)
        ∧ updateFieldCell f w h m = Done f1
        ∧ checkFieldBlackHole f1 w h = Done (f1, false)
        ∧ (if m then g = f1
           else ∃ prev', updateFieldVisibility fuel w h (f1, ∅) = Done (g, prev'))
        ∧ checkWinResult g = Done (match r with Won => true | _ => false end)
    end.
Proof.
  unfold turn. destruct (parseUserCommand f line) as [[[w h] m] [e|]] eqn:Hparse.
  { intros [= <- <-]. split; [apply grows_refl|]. split; [done|]. by exists w, h, m. }
  intros (f1 & Hcell & Hrun)%bind_Done_inv.
  apply bind_Done_inv in Hrun as ([f2 b] & Hcheck & Hrun).
  pose proof (updateFieldCell_grows _ _ _ _ _ Hcell) as Hg1.
  pose proof (checkFieldBlackHole_grows _ _ _ _ _ Hcheck) as Hg2.
  destruct b.
  - apply bind_Done_inv in Hrun as (g' & Hforce & [= <- <-]).
    split; [|by exists w, h, m, f1, f2].
    eapply grows_trans; [exact Hg1|]. eapply grows_trans; [exact Hg2|].
    by apply forceTotalVisibility_grows.
  - assert (f2 = f1) as ->.
    { unfold checkFieldBlackHole in Hcheck.
      apply bind_Done_inv in Hcheck as (c & _ & Hcheck).
      destruct (IsVisible c && IsBlackHole c).
      - apply bind_Done_inv in Hcheck as (? & _ & [=]).
      - by injection Hcheck as <-. }
    apply bind_Done_inv in Hrun as (g' & Hflood & Hrun).
    apply bind_Done_inv in Hrun as (won & Hwin & [= <- <-]).
    assert (grows f1 g' ∧ if m then g' = f1
            else ∃ prev', updateFieldVisibility fuel w h (f1, ∅) = Done (g', prev'))
      as [Hg3 Hm].
    { destruct m; simpl in Hflood.
      - injection Hflood as <-. split; [apply grows_refl | done].
      - apply bind_Done_inv in Hflood as ([g2 p2] & Hrun & [= <-]).
        split; [by eapply updateFieldVisibility_grows | by exists p2]. }
    split; [eapply grows_trans; [exact Hg1 | exact Hg3]|].
    destruct won; exists w, h, m, f1; repeat split; try done.
Qed.

Lemma grows_wf f g : wf_field f → grows f g → wf_field g.
Proof.
  intros [HW HH Hsz Hlen] [(HW' & HH' & _ & Hl) _].
  constructor; rewrite ?HW', ?HH', ?Hl; done.
Qed.

Lemma grows_exploded_ok f g : grows f g → exploded_ok f → exploded_ok g.
Proof.
  intros [(_ & _ & _ & Hl) Hcells] Hok i c' Hc' Hex.
  destruct (lookup_lt_is_Some_2 (Cells f) i) as [c Hc].
  { rewrite <- Hl. by eapply lookup_lt_Some. }
  destruct (Hcells i c Hc) as (c2 & Hc2 & Hh & _ & Hv & _ & _ & Hx).
  rewrite Hc' in Hc2. injection Hc2 as <-.
  destruct (Hx Hex) as [He|?]; [|done].
  destruct (Hok i c Hc He) as [Hvis Hhole]. split; [auto | congruence].
Qed.

Lemma grows_safe_marked f g : grows f g → safe_marked f → safe_marked g.
Proof.
  intros [_ Hcells] (i & c & Hc & Hsafe & Hm).
  destruct (Hcells i c Hc) as (c' & Hc' & Hh & _ & _ & Hm' & _).
  exists i, c'. split; [done|]. split; [congruence | auto].
Qed.

Lemma safe_marked_not_won f : wf_field f → safe_marked f → checkWinResult f = Done false.
Proof.
  intros Hwf (i & c & Hc & Hsafe & Hm). rewrite checkWinResult_forallb by done. f_equal.
  destruct (forallb settledb (Cells f)) eqn:Hall; [|done].
  rewrite forallb_forall in Hall.
  assert (settledb c = true) as Hs.
  { apply Hall, list_elem_of_In. by eapply list_elem_of_lookup_2. }
  unfold settledb in Hs. rewrite Hsafe, Hm in Hs. by destruct (IsVisible c).
Qed.

Lemma play_inv fuel lines : ∀ f g r,
  play fuel f lines = Done (g, r) →
  grows f g
  ∧ (r = Won → ∃ f0, grows f f0 ∧ grows f0 g ∧ checkWinResult g = Done true)
  ∧ ∀ e, r ≠ Rejected e.
Proof.
  induction lines as [|line lines IH]; intros f g r Hrun.
  - injection Hrun as <- <-. split; [apply grows_refl|]. split; [discriminate | discriminate].
  - simpl in Hrun. apply bind_Done_inv in Hrun as ([g1 r1] & Hturn & Hrest).
    destruct (turn_inv _ _ _ _ _ Hturn) as [Hg1 Hr1]. cbn [fst snd] in Hrest.
    destruct r1 as [e| | |].
    + destruct (IH _ _ _ Hrest) as (Hg & Hwon & Hrej).
      split; [by eapply grows_trans|]. split; [|done].
      intros Hr. destruct (Hwon Hr) as (f0 & ? & ? & ?). exists f0.
      split; [by eapply grows_trans | done].
    + injection Hrest as <- <-. split; [done|]. split; discriminate.
    + injection Hrest as <- <-. split; [done|]. split; [|discriminate].
      intros _. exists g1. destruct Hr1 as (w & h & m & f1 & _ & _ & _ & _ & Hwin).
      split; [done|]. split; [apply grows_refl | done].
    + destruct (IH _ _ _ Hrest) as (Hg & Hwon & Hrej).
      split; [by eapply grows_trans|]. split; [|done].
      intros Hr. destruct (Hwon Hr) as (f0 & ? & ? & ?). exists f0.
      split; [by eapply grows_trans | done].
Qed.

(** [X1] Nothing is undone in the course of a game. Whatever the commands,
    when the loop of [main] has come from the field [f] to the field [g], the
    field has kept its dimensions, every cell has kept its black hole and its
    counter, and no flag - visible, marked, exploded - that was set in [f] is
    cleared in [g]. *)
Theorem play_never_undoes (fuel : nat) (f : playField) (lines : list string)
    (g : playField) (r : turnEnd) :
  play fuel f lines = Done (g, r) →
  Width g = Width f ∧ Height g = Height f ∧ BlackHoleQuantity g = BlackHoleQuantity f
  ∧ length (Cells g) = length (Cells f)
  ∧ ∀ i c, Cells f !! i = Some c →
      ∃ c', Cells g !! i = Some c'
        ∧ IsBlackHole c' = IsBlackHole c
        ∧ AdjucentBlackHoleQuantity c' = AdjucentBlackHoleQuantity c
        ∧ (IsVisible c = true → IsVisible c' = true)
        ∧ (IsMarked c = true → IsMarked c' = true)
        ∧ (IsExploded c = true → IsExploded c' = true).
Proof.
  intros Hrun. destruct (play_inv _ _ _ _ _ Hrun) as [[(HW & HH & HQ & Hl) Hcells] _].
  split; [done|]. split; [done|]. split; [done|]. split; [done|].
  intros i c Hc. destruct (Hcells i c Hc) as (c' & Hc' & Hh & Ha & Hv & Hm & He & _).
  by exists c'.
Qed.

(** A mark and a reveal on [corner_field]. *)
Lemma play_never_undoes_witness :
  ∃ g r, play 10 corner_field ["1 1 true"; "0 0"]%string = Done (g, r)
         ∧ Width g = Width corner_field.
Proof.
  assert (∃ g r, play 10 corner_field ["1 1 true"; "0 0"]%string = Done (g, r))
    as (g & r & Hrun).
  { eexists _, _. vm_compute. reflexivity. }
  exists g, r. split; [exact Hrun|].
  exact (proj1 (play_never_undoes 10 corner_field _ g r Hrun)).
Defined.

(** [X2] Only visible black holes are exploded, all through a game: when no
    cell of [f] is exploded without being a visible black hole, the same
    holds of every field the loop of [main] comes to. *)
Theorem play_exploded_ok (fuel : nat) (f : playField) (lines : list string)
    (g : playField) (r : turnEnd) :
  exploded_ok f → play fuel f lines = Done (g, r) → exploded_ok g.
Proof.
  intros Hok Hrun. destruct (play_inv _ _ _ _ _ Hrun) as [Hg _].
  by eapply grows_exploded_ok.
Qed.

Lemma play_exploded_ok_witness :
  ∃ g, play 1 tall_field ["0 0"]%string = Done (g, Exploded) ∧ exploded_ok g.
Proof.
  assert (∃ g, play 1 tall_field ["0 0"]%string = Done (g, Exploded)) as (g & Hrun).
  { eexists. vm_compute. reflexivity. }
  exists g. split; [exact Hrun|].
  apply (play_exploded_ok 1 tall_field ["0 0"%string] g Exploded); [|exact Hrun].
  intros i c Hc Hex. repeat (destruct i as [|i]; [injection Hc as <-; discriminate Hex|]).
  discriminate Hc.
Defined.

(** [X3] A mark on a cell without a black hole cannot be taken back: no
    command clears it, so from a well-formed field in which such a cell is
    marked no sequence of commands leads to a win. *)
Theorem play_marked_never_won (fuel : nat) (f : playField) (lines : list string)
    (g : playField) (r : turnEnd) :
  wf_field f → safe_marked f → play fuel f lines = Done (g, r) → r ≠ Won.
Proof.
  intros Hwf Hmarked Hrun ->. destruct (play_inv _ _ _ _ _ Hrun) as (Hg & Hwon & _).
  destruct (Hwon eq_refl) as (_ & _ & _ & Hwin).
  rewrite (safe_marked_not_won g) in Hwin; [discriminate | by eapply grows_wf |].
  by eapply grows_safe_marked.
Qed.

(** The cell in the middle of [corner_field] marked, then everything else
    that is no black hole revealed. *)
Lemma play_marked_never_won_witness :
  ∃ g r, play 10 (mkField 3 3 2 (<[4%nat := setMarked (mkCell false false false false 2)]>
                                    (Cells corner_field)))
              ["0 0"; "1 0"; "0 1"; "2 1"; "1 2"; "2 2"; "1 1"]%string = Done (g, r)
         ∧ r ≠ Won.
Proof.
  set (f := mkField 3 3 2 _).
  assert (∃ g r, play 10 f ["0 0"; "1 0"; "0 1"; "2 1"; "1 2"; "2 2"; "1 1"]%string
                 = Done (g, r)) as (g & r & Hrun).
  { eexists _, _. vm_compute. reflexivity. }
  exists g, r. split; [exact Hrun|].
  apply (play_marked_never_won 10 f
           ["0 0"; "1 0"; "0 1"; "2 1"; "1 2"; "2 2"; "1 1"]%string g r); [| |exact Hrun].
  - constructor; simpl; [lia | lia | unfold GoInt.max_int; lia | reflexivity].
  - exists 4%nat, (setMarked (mkCell false false false false 2)). split; [reflexivity|].
    split; reflexivity.
Defined.

(** ** One command *)

Section Put.
Context (f : playField) (Hwf : wf_field f) (w h : Z) (Hb : in_bounds f w h).

Lemma wf_put c' : wf_field (put f w h c').
Proof. apply wf_withCells; [done|]. by rewrite length_insert. Qed.

Lemma cell_of_put c' : cell_of (put f w h c') w h = Some c'.
Proof.
  destruct (cell_of_in_bounds f Hwf w h Hb) as [c Hc].
  unfold cell_of, put. simpl. apply list_lookup_insert_eq. by eapply lookup_lt_Some.
Qed.

Lemma cell_of_put_ne c' w' h' :
  in_bounds f w' h' → (w', h') ≠ (w, h) → cell_of (put f w h c') w' h' = cell_of f w' h'.
Proof.
  intros Hb' Hne. unfold cell_of, put. simpl. apply list_lookup_insert_ne.
  intros Heq. apply Hne. pose proof (index_bounds f w h Hb).
  pose proof (index_bounds f w' h' Hb').
  destruct (index_inj f w h w' h' Hb Hb') as [-> ->]; [lia | done].
Qed.

Lemma updateFieldCell_put m c :
  cell_of f w h = Some c →
  updateFieldCell f w h m = Done (put f w h (if m then setMarked c else setVisible c)).
Proof.
  intros Hc. unfold updateFieldCell. destruct m; by apply field_modify_in_bounds.
Qed.

Lemma checkFieldBlackHole_put c :
  cell_of f w h = Some c →
  checkFieldBlackHole f w h
  = Done (if IsVisible c && IsBlackHole c then (put f w h (setExploded c), true)
          else (f, false)).
Proof.
  intros Hc. unfold checkFieldBlackHole.
  rewrite (proj2 (cell_at_cell_of f Hwf w h c Hb) Hc), bind_Done.
  destruct (IsVisible c && IsBlackHole c); [|done].
  by rewrite (field_modify_in_bounds f w h setExploded c).
Qed.

End Put.

Lemma in_bounds_put f w h c' w' h' : in_bounds (put f w h c') w' h' ↔ in_bounds f w' h'.
Proof. done. Qed.

(** [X4] The reveal of a black hole ends the game. On a well-formed field at
    least as high as wide, a command accepted as a reveal of a position
    inside the field whose cell holds a black hole makes the turn end with
    [Exploded]: that cell is visible and exploded, every cell of the first
    [Width] rows is visible, and the cells of the rows below are as they
    were. On a well-formed field wider than high the same command makes the
    program panic, out of the slice. *)
Theorem turn_reveal_black_hole (fuel : nat) (f : playField) (line : string) (w h : Z)
    (c : playCell) :
  wf_field f → parseUserCommand f line = (w, h, false, None) →
  in_bounds f w h → cell_of f w h = Some c → IsBlackHole c = true →
  (Width f ≤ Height f →
     ∃ g, turn fuel f line = Done (g, Exploded)
       ∧ same_shape f g
       ∧ (∃ c', cell_of g w h = Some c' ∧ IsVisible c' = true ∧ IsExploded c' = true)
       ∧ ∀ w' h' c0, in_bounds f w' h' → cell_of f w' h' = Some c0 →
           ∃ c', cell_of g w' h' = Some c'
             ∧ (h' < Width f → IsVisible c' = true)
             ∧ (Width f ≤ h' → (w', h') ≠ (w, h) → c' = c0))
  ∧ (Height f < Width f → turn fuel f line = Panic IndexOutOfRange).
Proof.
  intros Hwf Hparse Hb Hc Hhole.
  set (f1 := put f w h (setVisible c)).
  set (f2 := put f1 w h (setExploded (setVisible c))).
  assert (wf_field f1) as Hwf1 by (by apply wf_put).
  assert (wf_field f2) as Hwf2 by (by apply wf_put).
  assert (turn fuel f line = (g ← forceTotalVisibility f2; Done (g, Exploded))) as Hturn.
  { unfold turn. rewrite Hparse. rewrite (updateFieldCell_put f Hwf w h Hb false c Hc).
    rewrite bind_Done. fold f1.
    rewrite (checkFieldBlackHole_put f1 Hwf1 w h Hb (setVisible c)) by (by apply cell_of_put).
    cbn [setVisible IsVisible IsBlackHole andb]. rewrite Hhole. reflexivity. }
  assert (∀ w' h' c0, in_bounds f w' h' → cell_of f w' h' = Some c0 →
            ∃ c2, cell_of f2 w' h' = Some c2
                  ∧ ((w', h') = (w, h) → c2 = setExploded (setVisible c))
                  ∧ ((w', h') ≠ (w, h) → c2 = c0)) as Hcells2.
  { intros w' h' c0 Hb' Hc0. destruct (decide ((w', h') = (w, h))) as [[= -> ->]|Hne].
    - eexists. split; [by apply cell_of_put|]. split; done.
    - exists c0. split; [|split; done].
      unfold f2. rewrite cell_of_put_ne by done. unfold f1. by rewrite cell_of_put_ne. }
  split.
  - intros Hle. destruct (forceTotalVisibility_rows f2 Hwf2 Hle) as (g & Hrun & Hshape & Hg).
    exists g. rewrite Hturn, Hrun, bind_Done. split; [done|]. split.
    { destruct Hshape as (HW & HH & HQ & Hl). split; [done|]. split; [done|].
      split; [done|]. rewrite Hl. unfold f2, f1, put. simpl. by rewrite !length_insert. }
    assert (Width f2 = Width f) as HW2 by done. split.
    + destruct (Hcells2 w h c Hb Hc) as (c2 & Hc2 & Heq & _).
      rewrite (Hg w h c2 Hb Hc2), (Heq eq_refl). eexists. split; [done|].
      by case_decide.
    + intros w' h' c0 Hb' Hc0. destruct (Hcells2 w' h' c0 Hb' Hc0) as (c2 & Hc2 & Heq & Hne).
      rewrite (Hg w' h' c2 Hb' Hc2), HW2. eexists. split; [done|]. split.
      * intros Hlt. rewrite decide_True by done. done.
      * intros Hge Hother. rewrite decide_False by lia. by apply Hne.
  - intros Hlt. rewrite Hturn, (forceTotalVisibility_panics f2 Hwf2) by done. done.
Qed.

(** The field 2 x 2 with a black hole in its first cell. *)
Lemma turn_reveal_black_hole_witness :
  ∃ g, turn 0 (mkField 2 2 1 [mkCell false true false false 0; mkCell false false false false 1;
                              mkCell false false false false 1; mkCell false false false false 1])
            "0 0" = Done (g, Exploded).
Proof.
  destruct (turn_reveal_black_hole 0
              (mkField 2 2 1 [mkCell false true false false 0; mkCell false false false false 1;
                              mkCell false false false false 1; mkCell false false false false 1])
              "0 0" 0 0 (mkCell false true false false 0)) as [Hok _].
  - constructor; simpl; [lia | lia | unfold GoInt.max_int; lia | reflexivity].
  - vm_compute. reflexivity.
  - unfold in_bounds; simpl; lia.
  - reflexivity.
  - reflexivity.
  - destruct Hok as (g & Hrun & _); [simpl; lia|]. by exists g.
Defined.

(** [X5] The reveal of a cell without a black hole never ends the game in a
    loss and never panics. On a well-formed field, with a depth allowed to the
    flood above the number of cells, a command accepted as a reveal of a
    position inside the field whose cell holds no black hole makes the turn
    return with [Won] or [Continues]; the cell is visible afterwards, the
    cells differ from what they were in their visibility at most, and the
    turn ends with [Won] exactly when every cell without a black hole is then
    visible and not marked. *)
Theorem turn_reveal_safe (fuel : nat) (f : playField) (line : string) (w h : Z)
    (c : playCell) :
  wf_field f → (Z.to_nat (Width f * Height f) < fuel)%nat →
  parseUserCommand f line = (w, h, false, None) →
  in_bounds f w h → cell_of f w h = Some c → IsBlackHole c = false →
  ∃ g r, turn fuel f line = Done (g, r)
    ∧ (r = Won ∨ r = Continues)
    ∧ (r = Won ↔ ∀ i c', Cells g !! i = Some c' →
                   IsBlackHole c' = false → IsVisible c' = true ∧ IsMarked c' = false)
    ∧ (∃ c', cell_of g w h = Some c' ∧ IsVisible c' = true)
    ∧ ∀ w' h' c0, in_bounds f w' h' → cell_of f w' h' = Some c0 →
        ∃ c', cell_of g w' h' = Some c' ∧ (c' = c0 ∨ c' = setVisible c0).
Proof.
  intros Hwf Hfuel Hparse Hb Hc Hsafe.
  set (f1 := put f w h (setVisible c)).
  assert (wf_field f1) as Hwf1 by (by apply wf_put).
  destruct (flood_result f1 w h fuel ∅ Hwf1 Hb Hfuel) as (g & prev' & V & Hrun & Hshown & _).
  pose proof (shown_wf f1 Hwf1 V g Hshown) as Hwfg.
  exists g, (if forallb settledb (Cells g) then Won else Continues).
  split.
  { unfold turn. rewrite Hparse, (updateFieldCell_put f Hwf w h Hb false c Hc), bind_Done.
    fold f1.
    rewrite (checkFieldBlackHole_put f1 Hwf1 w h Hb (setVisible c)) by (by apply cell_of_put).
    cbn [setVisible IsVisible IsBlackHole andb]. rewrite Hsafe, bind_Done.
    cbn [negb]. rewrite Hrun, !bind_Done. cbn [fst]. rewrite checkWinResult_forallb by done.
    by rewrite bind_Done. }
  split; [destruct (forallb settledb (Cells g)); auto|]. split.
  { transitivity (forallb settledb (Cells g) = true).
    { destruct (forallb settledb (Cells g)); split; done. }
    rewrite forallb_forall. split.
    - intros H i c' Hc'. apply settledb_settled, H, list_elem_of_In.
      by eapply list_elem_of_lookup_2.
    - intros H c' Hc'. apply list_elem_of_In, list_elem_of_lookup in Hc' as [i Hi].
      apply settledb_settled. intros ?. by eapply H. }
  destruct Hshown as [_ Hcells]. split.
  - rewrite (Hcells w h (setVisible c) Hb) by (by apply cell_of_put).
    eexists. split; [done|]. by case_decide.
  - intros w' h' c0 Hb' Hc0. destruct (decide ((w', h') = (w, h))) as [[= -> ->]|Hne].
    + rewrite (Hcells w h (setVisible c) Hb) by (by apply cell_of_put).
      rewrite Hc in Hc0. injection Hc0 as <-. eexists. split; [done|]. right.
      by case_decide.
    + rewrite (Hcells w' h' c0 Hb') by (unfold f1; by rewrite cell_of_put_ne).
      eexists. split; [done|]. case_decide; auto.
Qed.

(** The reveal of the corner of [corner_field]. *)
Lemma turn_reveal_safe_witness :
  ∃ g r, turn 10 corner_field "0 0" = Done (g, r) ∧ (r = Won ∨ r = Continues).
Proof.
  destruct (turn_reveal_safe 10 corner_field "0 0" 0 0 (mkCell false false false false 0))
    as (g & r & Hrun & Hr & _).
  - constructor; simpl; [lia | lia | unfold GoInt.max_int; lia | reflexivity].
  - simpl. lia.
  - vm_compute. reflexivity.
  - unfold in_bounds; simpl; lia.
  - reflexivity.
  - reflexivity.
  - by exists g, r.
Defined.

(** [X6] A mark changes one flag of one cell and reveals nothing. On a
    well-formed field, a command accepted as a mark of a position inside the
    field whose cell is not a visible black hole makes the turn return with
    the field in which that cell is marked and nothing else has changed - no
    flood runs. The turn ends with [Won] or [Continues], and with [Continues]
    when the cell holds no black hole. *)
Theorem turn_mark (fuel : nat) (f : playField) (line : string) (w h : Z) (c : playCell) :
  wf_field f → parseUserCommand f line = (w, h, true, None) →
  in_bounds f w h → cell_of f w h = Some c → IsVisible c && IsBlackHole c = false →
  ∃ r, turn fuel f line = Done (put f w h (setMarked c), r)
    ∧ (r = Won ∨ r = Continues)
    ∧ (IsBlackHole c = false → r = Continues)
    ∧ ∀ w' h', in_bounds f w' h' → (w', h') ≠ (w, h) →
        cell_of (put f w h (setMarked c)) w' h' = cell_of f w' h'.
Proof.
  intros Hwf Hparse Hb Hc Hquiet.
  set (f1 := put f w h (setMarked c)).
  assert (wf_field f1) as Hwf1 by (by apply wf_put).
  exists (if forallb settledb (Cells f1) then Won else Continues). split.
  { unfold turn. rewrite Hparse, (updateFieldCell_put f Hwf w h Hb true c Hc), bind_Done.
    fold f1.
    rewrite (checkFieldBlackHole_put f1 Hwf1 w h Hb (setMarked c)) by (by apply cell_of_put).
    cbn [setMarked IsVisible IsBlackHole]. rewrite Hquiet, bind_Done.
    cbn [negb]. rewrite bind_Done, checkWinResult_forallb by done. by rewrite bind_Done. }
  split; [destruct (forallb settledb (Cells f1)); auto|]. split.
  - intros Hsafe. destruct (forallb settledb (Cells f1)) eqn:Hall; [|done].
    rewrite forallb_forall in Hall.
    assert (settledb (setMarked c) = true) as Hs.
    { apply Hall, list_elem_of_In. eapply list_elem_of_lookup_2.
      exact (cell_of_put f Hwf w h Hb (setMarked c)). }
    unfold settledb in Hs. simpl in Hs. rewrite Hsafe in Hs. by destruct (IsVisible c).
  - intros w' h' Hb' Hne. by apply cell_of_put_ne.
Qed.

(** A mark on the black hole in the corner of [corner_field]. *)
Lemma turn_mark_witness :
  ∃ r, turn 0 corner_field "2 0 true"
       = Done (put corner_field 2 0 (setMarked (mkCell false true false false 0)), r).
Proof.
  destruct (turn_mark 0 corner_field "2 0 true" 2 0 (mkCell false true false false 0))
    as (r & Hrun & _).
  - constructor; simpl; [lia | lia | unfold GoInt.max_int; lia | reflexivity].
  - vm_compute. reflexivity.
  - unfold in_bounds; simpl; lia.
  - reflexivity.
  - reflexivity.
  - by exists r.
Defined.

(** ** More on the parser and on construction *)

Lemma Atoi_range s v : Atoi s = Some v → GoInt.in_range v.
Proof.
  unfold Atoi.
  destruct (match list_ascii_of_string s with
            | [] => (false, list_ascii_of_string s)
            | a :: l' => _
            end) as [negative ds].
  destruct ds as [|d ds]; [discriminate|].
  destruct (digits_value 0 (d :: ds)) as [n|]; [|discriminate].
  destruct ((GoInt.min_int <=? (if negative then - n else n))
            && ((if negative then - n else n) <=? GoInt.max_int)) eqn:Hr; [|discriminate].
  intros [= <-]. apply andb_true_iff in Hr as [?%Z.leb_le ?%Z.leb_le]. by split.
Qed.

(** What the parser returns, by the number of tokens. *)
Lemma parseUserCommand_cases f line x y m err :
  parseUserCommand f line = (x, y, m, err) →
  match err with
  | None =>
      ∃ a b, Atoi a = Some x ∧ Atoi b = Some y ∧ x < Width f ∧ y < Height f
             ∧ a = arg (Fields (TrimSpace line)) 0 ∧ b = arg (Fields (TrimSpace line)) 1
             ∧ (length (Fields (TrimSpace line)) = 2%nat
                ∨ length (Fields (TrimSpace line)) = 3%nat)
  | Some _ => x = 0 ∧ y = 0 ∧ m = false
  end.
Proof.
  unfold parseUserCommand. cbv zeta. set (args := Fields (TrimSpace line)).
  destruct (Z.ltb_spec (Z.of_nat (length args)) 2); [by intros [= <- <- <- <-]|].
  destruct (Z.eqb_spec (Z.of_nat (length args)) 2) as [H2|H2];
    destruct (Z.eqb_spec (Z.of_nat (length args)) 3) as [H3|H3]; cbn [orb];
    try (by intros [= <- <- <- <-]); try lia.
  all: destruct (Atoi (arg args 0)) as [x'|] eqn:Ha; [|by intros [= <- <- <- <-]].
  all: destruct (Z.geb_spec x' (Width f)); [by intros [= <- <- <- <-]|].
  all: destruct (Atoi (arg args 1)) as [y'|] eqn:Hb; [|by intros [= <- <- <- <-]].
  all: destruct (Z.geb_spec y' (Height f)); [by intros [= <- <- <- <-]|].
  - intros [= <- <- <- <-]. exists (arg args 0), (arg args 1).
    repeat split; try done. left. lia.
  - destruct (_ || _).
    + intros [= <- <- <- <-]. exists (arg args 0), (arg args 1).
      repeat split; try done. right. lia.
    + destruct (_ || _); [|by intros [= <- <- <- <-]].
      intros [= <- <- <- <-]. exists (arg args 0), (arg args 1).
      repeat split; try done. right. lia.
Qed.

(** [X7] What the parser lets through. A command it accepts has two or three
    tokens and coordinates that are machine integers below the width and the
    height of the field - nothing bounds them from below, a negative
    coordinate is accepted; a command it rejects comes with the coordinates
    0, 0 and no mark. *)
Theorem parseUserCommand_bounds (f : playField) (line : string) (x y : Z) (m : bool)
    (err : option parseError) :
  parseUserCommand f line = (x, y, m, err) →
  match err with
  | None => GoInt.in_range x ∧ GoInt.in_range y ∧ x < Width f ∧ y < Height f
            ∧ (length (Fields (TrimSpace line)) = 2%nat
               ∨ length (Fields (TrimSpace line)) = 3%nat)
  | Some _ => x = 0 ∧ y = 0 ∧ m = false
  end.
Proof.
  intros Hparse. apply parseUserCommand_cases in Hparse. destruct err; [done|].
  destruct Hparse as (a & b & Ha & Hb & Hx & Hy & _ & _ & Hlen).
  split; [by eapply Atoi_range|]. split; [by eapply Atoi_range|]. done.
Qed.

(** A negative column is accepted. *)
Lemma parseUserCommand_bounds_witness :
  parseUserCommand corner_field "-1 2" = (-1, 2, false, None) ∧ -1 < Width corner_field.
Proof.
  assert (parseUserCommand corner_field "-1 2" = (-1, 2, false, None)) as Hparse
    by (vm_compute; reflexivity).
  split; [exact Hparse|].
  exact (proj1 (proj2 (proj2 (parseUserCommand_bounds corner_field "-1 2" (-1) 2 false None
                                Hparse)))).
Defined.

(** [X8] A negative column in the first row crashes the program: on a
    well-formed field a command accepted with the row 0 and a negative column
    makes [updateFieldCell] index the slice below 0, and the turn panics. *)
Theorem turn_negative_column_panics (fuel : nat) (f : playField) (line : string)
    (x : Z) (m : bool) :
  wf_field f → parseUserCommand f line = (x, 0, m, None) → x < 0 →
  turn fuel f line = Panic IndexOutOfRange.
Proof.
  intros Hwf Hparse Hneg. pose proof (parseUserCommand_bounds _ _ _ _ _ _ Hparse) as (Hx & _).
  unfold turn. rewrite Hparse. unfold updateFieldCell, field_modify, cell_modify.
  rewrite (mul_small 0 (Width f)) by (rewrite Z.mul_0_l; int_range).
  rewrite Z.mul_0_l, add_small by (by rewrite Z.add_0_l). rewrite Z.add_0_l.
  rewrite (cell_at_out (Cells f) x) by lia. by destruct m.
Qed.

Lemma turn_negative_column_panics_witness :
  turn 10 corner_field "-1 0" = Panic IndexOutOfRange.
Proof.
  apply (turn_negative_column_panics 10 corner_field "-1 0" (-1) false).
  - constructor; simpl; [lia | lia | unfold GoInt.max_int; lia | reflexivity].
  - vm_compute. reflexivity.
  - lia.
Defined.

(** [X9] A negative column in a lower row hits the cell before: on a
    well-formed field, for a row from 1 on and a column from [-Width] to -1,
    [updateFieldCell] and [checkFieldBlackHole] act as at the column
    [Width] further right in the row above. *)
Theorem negative_column_aliases (f : playField) (x y : Z) (m : bool) :
  wf_field f → - Width f ≤ x < 0 → 1 ≤ y < Height f →
  updateFieldCell f x y m = updateFieldCell f (x + Width f) (y - 1) m
  ∧ checkFieldBlackHole f x y = checkFieldBlackHole f (x + Width f) (y - 1)
  ∧ in_bounds f (x + Width f) (y - 1).
Proof.
  intros Hwf Hx Hy.
  assert (in_bounds f (x + Width f) (y - 1)) as Hb by (unfold in_bounds; lia).
  pose proof (index_bounds f _ _ Hb) as Hi.
  pose proof (index_exact f Hwf _ _ Hb) as Hexact.
  assert (y *! Width f +! x = (y - 1) * Width f + (x + Width f)) as Halias.
  { destruct Hwf as [HW HH Hsz _].
    rewrite mul_small by (unfold GoInt.in_range, GoInt.min_int, GoInt.max_int in *; nia).
    rewrite add_small by (unfold GoInt.in_range, GoInt.min_int, GoInt.max_int in *; nia).
    lia. }
  unfold updateFieldCell, checkFieldBlackHole. rewrite Halias, Hexact. done.
Qed.

Lemma negative_column_aliases_witness :
  updateFieldCell corner_field (-1) 2 false = updateFieldCell corner_field 2 1 false.
Proof.
  refine (proj1 (negative_column_aliases corner_field (-1) 2 false _ _ _)).
  - constructor; simpl; [lia | lia | unfold GoInt.max_int; lia | reflexivity].
  - simpl. lia.
  - simpl. lia.
Defined.

(** [X10] What [NewPlayField] accepts and builds. When the product of the
    dimensions is an [int], construction succeeds exactly when the width and
    the height are positive and the quantity of black holes lies between 1
    and their product; the field built is well formed, has these dimensions
    and this quantity, and all its cells are hidden, not marked, not exploded,
    without a black hole and with a zero counter. The checks fail in the
    order width, height, quantity too low, quantity too high. *)
Theorem NewPlayField_spec (w h q : Z) :
  w * h ≤ GoInt.max_int →
  match NewPlayField w h q with
  | inl f => 0 < w ∧ 0 < h ∧ 1 ≤ q ≤ w * h
             ∧ f = mkField w h q (replicate (Z.to_nat (w * h)) zeroCell) ∧ wf_field f
  | inr WidthNotPositive => w ≤ 0
  | inr HeightNotPositive => 0 < w ∧ h ≤ 0
  | inr QuantityNotPositive => 0 < w ∧ 0 < h ∧ q < 1
  | inr QuantityTooHigh => 0 < w ∧ 0 < h ∧ 1 ≤ q ∧ w * h < q
  end.
Proof.
  intros Hsz. unfold NewPlayField.
  destruct (Z.leb_spec w 0); [done|]. destruct (Z.leb_spec h 0); [done|].
  destruct (Z.ltb_spec q 1); [done|].
  rewrite mul_small by (unfold GoInt.in_range, GoInt.min_int, GoInt.max_int in *; nia).
  destruct (Z.gtb_spec q (w * h)); [done|].
  split; [lia|]. split; [lia|]. split; [lia|]. split; [done|].
  constructor; simpl; [lia | lia | done | rewrite length_replicate; nia].
Qed.

Lemma NewPlayField_spec_witness : wf_field (mkField 8 8 10 (replicate 64 zeroCell)).
Proof.
  assert (8 * 8 ≤ GoInt.max_int) as Hsz by (unfold GoInt.max_int; lia).
  exact (proj2 (proj2 (proj2 (proj2 (NewPlayField_spec 8 8 10 Hsz))))).
Defined.

(** ** More on the set-up of a game *)

(** [X11] The adjacency counters are added to, not recomputed: on a
    well-formed field with zero counters, a second run of
    [addAdjacentBlackHoles] leaves every counter at twice the number of black
    holes around the cell. *)
Theorem addAdjacentBlackHoles_twice (f : playField) :
  wf_field f →
  (∀ i c, Cells f !! i = Some c → AdjucentBlackHoleQuantity c = 0) →
  ∃ f1 f2, addAdjacentBlackHoles f = Done f1 ∧ addAdjacentBlackHoles f1 = Done f2
    ∧ ∀ w h, in_bounds f w h →
        ∃ c1 c2, cell_of f1 w h = Some c1 ∧ cell_of f2 w h = Some c2
          ∧ AdjucentBlackHoleQuantity c1 = Z.of_nat (adjacent_holes f w h)
          ∧ AdjucentBlackHoleQuantity c2 = 2 * Z.of_nat (adjacent_holes f w h).
Proof.
  intros Hwf Hzero.
  destruct (addAdjacentBlackHoles_counted f Hwf) as (f1 & Hrun1 & Hcnt1).
  pose proof (counted_wf f _ f1 Hwf Hcnt1) as Hwf1.
  pose proof (counted_same_holes f _ f1 Hwf Hcnt1) as Hholes.
  destruct (addAdjacentBlackHoles_counted f1 Hwf1) as (f2 & Hrun2 & Hcnt2).
  exists f1, f2. split; [done|]. split; [done|]. intros w h Hb.
  destruct Hcnt1 as [(HW & HH & _) Hcells1]. destruct Hcnt2 as [_ Hcells2].
  destruct (cell_of_in_bounds f Hwf w h Hb) as [c Hc].
  pose proof (index_bounds f w h Hb) as Hi.
  pose proof (Hcells1 w h c Hb Hc) as Hc1. rewrite decide_True in Hc1 by lia.
  assert (in_bounds f1 w h) as Hb1 by (unfold in_bounds; by rewrite HW, HH).
  pose proof (Hcells2 w h _ Hb1 Hc1) as Hc2.
  rewrite decide_True in Hc2 by (rewrite HW, HH; lia).
  rewrite (adjacent_holes_same f f1 w h Hholes) in Hc2.
  pose proof (adjacent_holes_le f w h) as Hle. pose proof (Hzero _ c Hc) as Hz.
  pose proof (bumped_counter (adjacent_holes f w h) c ltac:(lia) ltac:(lia)) as Hk1.
  pose proof (bumped_counter (adjacent_holes f w h) (bumped (adjacent_holes f w h) c)
                ltac:(lia) ltac:(lia)) as Hk2.
  eexists _, _. split; [exact Hc1|]. split; [exact Hc2|]. split; lia.
Qed.

Lemma addAdjacentBlackHoles_twice_witness :
  ∃ f1 f2, addAdjacentBlackHoles (mkField 2 1 1 [setBlackHole zeroCell; zeroCell]) = Done f1
           ∧ addAdjacentBlackHoles f1 = Done f2.
Proof.
  destruct (addAdjacentBlackHoles_twice (mkField 2 1 1 [setBlackHole zeroCell; zeroCell]))
    as (f1 & f2 & H1 & H2 & _).
  - constructor; simpl; [lia | lia | unfold GoInt.max_int; lia | reflexivity].
  - intros i c Hc. repeat (destruct i as [|i]; [by injection Hc as <-|]). done.
  - by exists f1, f2.
Defined.

(** [X12] [addBlackHoles] never panics on the field [NewPlayField] has built,
    when 100 times the quantity of black holes is an [int]: whatever the
    random source and however long the loop runs, it returns or is still
    running. *)
Theorem addBlackHoles_no_panic (w h q : Z) (f : playField) (rnd : nat → Z) (fuel : nat)
    (p : panic) :
  NewPlayField w h q = inl f → q * 100 ≤ GoInt.max_int →
  addBlackHoles fuel rnd f ≠ Panic p.
Proof.
  intros Hnew Hq Hrun.
  destruct (NewPlayField_ready w h q f Hnew) as (Hsize & Hlen & _ & HQ & _).
  apply (addBlackHoles_never_panics f rnd fuel p Hsize Hlen); [by rewrite HQ|].
  unfold addBlackHoles in Hrun.
  destruct (addBlackHoles_placed fuel rnd f) as [r|p'|]; [discriminate | | discriminate].
  by injection Hrun as ->.
Qed.

Lemma addBlackHoles_no_panic_witness :
  addBlackHoles 500 (λ _, 0) (mkField 2 1 2 [zeroCell; zeroCell]) ≠ Panic (PlacementExhausted 2 200).
Proof.
  apply (addBlackHoles_no_panic 2 1 2); [reflexivity | unfold GoInt.max_int; lia].
Defined.

Lemma count_holes_same (l l' : list playCell) :
  IsBlackHole <$> l = IsBlackHole <$> l' → count_holes l = count_holes l'.
Proof.
  revert l'. induction l as [|c l IH]; intros [|c' l'] Heq; try done.
  injection Heq as Hc Hl. unfold count_holes in *. simpl. rewrite Hc.
  specialize (IH l' Hl). destruct (IsBlackHole c'); simpl; lia.
Qed.

(** [X13] The field a game starts with. When the product of the dimensions
    is an [int] and the set-up of [main] - construction, placement, adjacency
    counters - returns a field, this field is well formed with the dimensions
    and the quantity asked for, exactly that many of its cells hold a black
    hole, every cell is hidden, not marked and not exploded, and the counter
    of every cell is the number of black holes around it. *)
Theorem startGame_spec (fuel : nat) (rnd : nat → Z) (w h q : Z) (f : playField) :
  w * h ≤ GoInt.max_int → startGame fuel rnd w h q = Done (inl f) →
  wf_field f ∧ Width f = w ∧ Height f = h ∧ BlackHoleQuantity f = q
  ∧ count_holes (Cells f) = q
  ∧ ∀ w' h', in_bounds f w' h' →
      ∃ c, cell_of f w' h' = Some c
        ∧ IsVisible c = false ∧ IsMarked c = false ∧ IsExploded c = false
        ∧ AdjucentBlackHoleQuantity c = Z.of_nat (adjacent_holes f w' h').
Proof.
  intros Hsz. unfold startGame. destruct (NewPlayField w h q) as [f0|e] eqn:Hnew; [|done].
  intros (f1 & Hplace & Hrest)%bind_Done_inv.
  apply bind_Done_inv in Hrest as (f' & Hadj & [= ->]).
  pose proof (NewPlayField_spec w h q Hsz) as Hspec. rewrite Hnew in Hspec.
  destruct Hspec as (_ & _ & Hq & _ & Hwf0).
  destruct (NewPlayField_ready w h q f0 Hnew) as (Hsize & Hlen & HQmax & HQ & Hzero & Hcells0).
  pose proof (NewPlayField_inl w h q f0 Hnew) as (Hf0 & _).
  unfold addBlackHoles in Hplace.
  apply bind_Done_inv in Hplace as ([f1' placed] & Hplaced & [= <-]). cbn [fst] in Hadj.
  pose proof (addBlackHoles_loop_spec rnd f0 (Width f0 *! Height f0)
                (BlackHoleQuantity f0 *! 100) Hsize Hlen ltac:(lia) fuel 0%nat f0 0 []
                (placing_start f0) eq_refl ltac:(lia)) as Hloop.
  unfold addBlackHoles_placed in Hplaced. rewrite Hplaced in Hloop.
  destruct Hloop as [[Hshape _ _ Hpl Hcount] Hn]. cbn [fst] in *.
  assert (wf_field f1') as Hwf1.
  { destruct Hshape as (HW & HH & _ & Hl), Hwf0 as [? ? ? Hlen0].
    constructor; rewrite ?HW, ?HH, ?Hl; done. }
  destruct (addAdjacentBlackHoles_counted f1' Hwf1) as (f2 & Hadj' & Hcnt).
  rewrite Hadj in Hadj'. injection Hadj' as <-.
  pose proof (counted_wf f1' _ f Hwf1 Hcnt) as Hwf.
  pose proof (counted_same_holes f1' _ f Hwf1 Hcnt) as Hholes.
  destruct Hcnt as [(HW & HH & HQf & Hl) Hcells]. destruct Hshape as (HW1 & HH1 & HQ1 & Hl1).
  split; [done|]. rewrite HW, HH, HQf, HW1, HH1, HQ1, Hf0. simpl.
  split; [done|]. split; [done|]. split; [done|]. split.
  - rewrite (count_holes_same (Cells f) (Cells f1')).
    + rewrite Hcount, Hzero. rewrite Hf0 in Hn. simpl in Hn. lia.
    + apply list_eq. intros i. rewrite !list_lookup_fmap. apply Hholes.
  - intros w' h' Hb. assert (in_bounds f1' w' h') as Hb1.
    { unfold in_bounds in *. by rewrite <- HW, <- HH. }
    destruct (cell_of_in_bounds f1' Hwf1 w' h' Hb1) as [c1 Hc1].
    pose proof (index_bounds f1' w' h' Hb1) as Hi.
    pose proof (Hcells w' h' c1 Hb1 Hc1) as Hc. rewrite decide_True in Hc by lia.
    assert (c1 = zeroCell ∨ c1 = setBlackHole zeroCell) as Hfresh.
    { unfold cell_of in Hc1. destruct (lookup_lt_is_Some_2 (Cells f0) (Z.to_nat (h' * Width f1' + w')))
        as [c0 Hc0]; [rewrite <- Hl1; by eapply lookup_lt_Some|].
      pose proof (Hcells0 _ c0 Hc0) as ->. rewrite (Hpl _ _ Hc0) in Hc1.
      injection Hc1 as <-. case_decide; auto. }
    pose proof (adjacent_holes_le f1' w' h') as Hle.
    destruct (bumped_flags (adjacent_holes f1' w' h') c1) as (Hv & Hm & He).
    pose proof (bumped_counter (adjacent_holes f1' w' h') c1) as Hk.
    rewrite (adjacent_holes_same f1' f w' h' Hholes).
    eexists. split; [exact Hc|]. rewrite Hv, Hm, He.
    destruct Hfresh as [-> | ->]; simpl in *; (split; [done|]; split; [done|]; split; [done|]);
      apply Hk; lia.
Qed.

Lemma startGame_spec_witness :
  wf_field corner_field ∧ count_holes (Cells corner_field) = 2.
Proof.
  destruct (startGame_spec 3 (λ n, match n with O => 2 | _ => 6 end) 3 3 2 corner_field)
    as (Hwf & _ & _ & _ & Hcount & _).
  - unfold GoInt.max_int. lia.
  - reflexivity.
  - split; [exact Hwf | exact Hcount].
Defined.

(** ** More on the flood reveal *)

Lemma Reach_transfer f g s p :
  (∀ p q, edge f p q → edge g p q) → Reach f s p → Reach g s p.
Proof.
  intros Hedge Hp. induction Hp as [|p q _ IH He]; [apply reach_start|].
  eapply reach_step; [exact IH | by apply Hedge].
Qed.

Lemma edge_shown f V g p q : wf_field f → shown f V g → edge g p q → edge f p q.
Proof.
  intros Hwf Hshown (Hbp & (cp & Hcp & Hzp) & Horth & Hbq & (cq & Hcq & Hfq)).
  pose proof Hshown as [(HW & HH & _) _].
  assert (in_bounds f p.1 p.2) as Hbp' by (unfold in_bounds in *; by rewrite <- HW, <- HH).
  assert (in_bounds f q.1 q.2) as Hbq' by (unfold in_bounds in *; by rewrite <- HW, <- HH).
  destruct (shown_cell f Hwf V g _ _ Hshown Hbp') as (c & c' & Hc & Hc' & _ & _ & Hadj).
  destruct (shown_cell f Hwf V g _ _ Hshown Hbq') as (d & d' & Hd & Hd' & _ & Hhole & _).
  rewrite Hc' in Hcp. injection Hcp as <-. rewrite Hd' in Hcq. injection Hcq as <-.
  split; [done|]. split; [exists c; split; [done | congruence]|]. split; [done|].
  split; [done|]. exists d. split; [done | congruence].
Qed.

Lemma field_ext g g' :
  wf_field g → same_shape g g' →
  (∀ w h, in_bounds g w h → cell_of g' w h = cell_of g w h) → g' = g.
Proof.
  intros Hwf (HW & HH & HQ & Hl) Hcells.
  assert (Cells g' = Cells g) as Hc.
  { apply list_eq. intros i. destruct (decide (i < length (Cells g))%nat) as [Hi|Hi].
    - destruct (position_of_index g Hwf i Hi) as (w & h & Hb & <-).
      pose proof (Hcells w h Hb) as Heq. unfold cell_of in Heq. by rewrite HW in Heq.
    - rewrite !lookup_ge_None_2; [done | lia | lia]. }
  destruct g, g'. simpl in *. by subst.
Qed.

(** [X14] The flood reveal is idempotent: on a well-formed field, from a
    position inside it, run as a top-level call with enough depth it returns a
    field on which a second top-level call at the same position returns that
    same field. *)
Theorem updateFieldVisibility_idempotent (f : playField) (w h : Z) (fuel : nat) :
  wf_field f → in_bounds f w h → (Z.to_nat (Width f * Height f) < fuel)%nat →
  ∃ g prev1 prev2,
    updateFieldVisibility fuel w h (f, ∅) = Done (g, prev1)
    ∧ updateFieldVisibility fuel w h (g, ∅) = Done (g, prev2).
Proof.
  intros Hwf Hb Hfuel.
  destruct (flood_result f w h fuel ∅ Hwf Hb Hfuel) as (g & p1 & V1 & Hrun1 & Hs1 & Hfl1).
  pose proof (shown_wf f Hwf V1 g Hs1) as Hwfg.
  pose proof Hs1 as [(HW & HH & _) Hcells1].
  assert (in_bounds g w h) as Hbg by (unfold in_bounds; by rewrite HW, HH).
  destruct (flood_result g w h fuel ∅ Hwfg Hbg ltac:(by rewrite HW, HH))
    as (g2 & p2 & V2 & Hrun2 & Hs2 & Hfl2).
  assert (g2 = g) as ->; [|by exists g, p1, p2].
  apply field_ext; [done | apply Hs2|]. intros w' h' Hb'.
  assert (in_bounds f w' h') as Hbf by (unfold in_bounds in *; by rewrite <- HW, <- HH).
  destruct (cell_of_in_bounds f Hwf w' h' Hbf) as [c Hc].
  pose proof (Hcells1 w' h' c Hbf Hc) as Hcg.
  destruct Hs2 as [_ Hcells2]. rewrite (Hcells2 w' h' _ Hb' Hcg), Hcg. f_equal.
  destruct (decide ((w', h') ∈ V2)) as [Hin|]; [|done].
  apply (flooded_exactly g (w, h) p2 V2 (w', h') Hfl2) in Hin as (p & Hp & He).
  assert ((w', h') ∈ V1) as Hin1.
  { apply (flooded_exactly f (w, h) p1 V1 (w', h') Hfl1). exists p. split.
    - eapply Reach_transfer; [|exact Hp]. intros ? ?. by apply (edge_shown f V1 g).
    - by apply (edge_shown f V1 g). }
  by rewrite decide_True.
Qed.

Lemma updateFieldVisibility_idempotent_witness :
  ∃ g prev1 prev2,
    updateFieldVisibility 10 0 0 (corner_field, ∅) = Done (g, prev1)
    ∧ updateFieldVisibility 10 0 0 (g, ∅) = Done (g, prev2).
Proof.
  apply (updateFieldVisibility_idempotent corner_field 0 0 10).
  - constructor; simpl; [lia | lia | unfold GoInt.max_int; lia | reflexivity].
  - unfold in_bounds; simpl; lia.
  - simpl. lia.
Defined.

(** ** Rendering *)

Lemma length_append (a b : string) :
  String.length (String.append a b) = (String.length a + String.length b)%nat.
Proof. induction a as [|x a IH]; [done|]. simpl. by rewrite IH. Qed.

Lemma for_each_ext {St} (l : list Z) (body body' : Z → St → outcome St) (s : St) :
  (∀ i s, i ∈ l → body i s = body' i s) → for_each l body s = for_each l body' s.
Proof.
  revert s. induction l as [|i l IH]; intros s Hext; [done|].
  simpl. rewrite (Hext i s) by left. destruct (body' i s) as [s1| |]; [|done..].
  rewrite !bind_Done. apply IH. intros j s2 Hj. apply Hext. by right.
Qed.

Lemma cellSymbol_view c : cellSymbol c = viewSymbol (view c).
Proof.
  unfold cellSymbol, view. destruct (IsExploded c); [done|].
  destruct (IsVisible c); simpl; [|by destruct (IsMarked c)].
  by destruct (IsBlackHole c).
Qed.

(** [X15] [printField] shows the views of the cells and nothing else: two
    well-formed fields of the same dimensions whose cells give the player the
    same views - exploded, hidden with or without a mark, visible black hole,
    visible counter - are printed alike. So nothing is printed of a hidden
    cell but its mark: neither its black hole nor its counter. *)
Theorem printField_shows_views (f g : playField) :
  wf_field f → wf_field g → Width g = Width f → Height g = Height f →
  (∀ w h c c', in_bounds f w h → cell_of f w h = Some c → cell_of g w h = Some c' →
     view c' = view c) →
  printField g = printField f.
Proof.
  intros Hwf Hwfg HW HH Hviews. unfold printField. rewrite HW, HH.
  apply for_each_ext. intros h printed Hh%elem_of_upto. f_equal.
  apply for_each_ext. intros w builder Hw%elem_of_upto.
  assert (in_bounds f w h) as Hb by done.
  assert (in_bounds g w h) as Hbg by (unfold in_bounds; by rewrite HW, HH).
  destruct (cell_of_in_bounds f Hwf w h Hb) as [c Hc].
  destruct (cell_of_in_bounds g Hwfg w h Hbg) as [c' Hc'].
  rewrite <- HW at 1.
  rewrite (proj2 (cell_at_cell_of g Hwfg w h c' Hbg) Hc').
  rewrite (proj2 (cell_at_cell_of f Hwf w h c Hb) Hc), !bind_Done.
  by rewrite !cellSymbol_view, (Hviews w h c c' Hb Hc Hc').
Qed.

(** Hidden, a black hole is printed like a hidden cell without one. *)
Lemma printField_shows_views_witness :
  printField (mkField 2 1 1 [zeroCell; zeroCell])
  = printField (mkField 2 1 1 [setBlackHole zeroCell; mkCell false false false false 1]).
Proof.
  apply printField_shows_views.
  - constructor; simpl; [lia | lia | unfold GoInt.max_int; lia | reflexivity].
  - constructor; simpl; [lia | lia | unfold GoInt.max_int; lia | reflexivity].
  - reflexivity.
  - reflexivity.
  - intros w h c c' [Hw Hh] Hc Hc'. simpl in Hw, Hh. assert (h = 0) as -> by lia.
    assert (w = 0 ∨ w = 1) as [-> | ->] by lia;
      injection Hc as <-; injection Hc' as <-; reflexivity.
Defined.

(** [X16] The shape of what [printField] writes. On a well-formed field
    whose counters lie between 0 and 9 (as they do after
    [addAdjacentBlackHoles]), [printField] returns an empty line followed by
    one line per row, each of twice as many characters as the field is wide:
    two characters per cell. *)
Theorem printField_shape (f : playField) :
  wf_field f →
  (∀ i c, Cells f !! i = Some c → 0 ≤ AdjucentBlackHoleQuantity c ≤ 9) →
  ∃ lines, printField f = Done (EmptyString :: lines)
    ∧ length lines = Z.to_nat (Height f)
    ∧ Forall (λ l, String.length l = Z.to_nat (2 * Width f)) lines.
Proof.
  intros Hwf Hsmall. unfold printField.
  destruct (for_each_upto_inv
              (λ h printed, ∃ lines, printed = EmptyString :: lines
                 ∧ length lines = Z.to_nat h
                 ∧ Forall (λ l, String.length l = Z.to_nat (2 * Width f)) lines)
              (Height f)
              (λ height printed,
                 symdolsLine ← for_each (upto (Width f)) (λ width builder,
                     currentCell ← cell_at (Cells f) (height *! Width f +! width);
                     Done (String.append builder (cellSymbol currentCell)))
                   EmptyString;
                 Done (printed ++ [symdolsLine]))
              [EmptyString]) as (printed & Hrun & lines & -> & Hlen & Hall).
  - exists []. split; [done|]. split; [done | constructor].
  - intros h printed Hh (lines & -> & Hlen & Hall).
    destruct (for_each_upto_inv
                (λ w builder, String.length builder = Z.to_nat (2 * w)) (Width f)
                (λ width builder,
                   currentCell ← cell_at (Cells f) (h *! Width f +! width);
                   Done (String.append builder (cellSymbol currentCell)))
                EmptyString) as (line & Hline & Hlenl).
    + done.
    + intros w builder Hw Hb. assert (in_bounds f w h) as Hin by done.
      destruct (cell_of_in_bounds f Hwf w h Hin) as [c Hc].
      rewrite (proj2 (cell_at_cell_of f Hwf w h c Hin) Hc), bind_Done.
      eexists. split; [done|]. rewrite length_append, Hb.
      assert (String.length (cellSymbol c) = 2%nat) as ->; [|lia].
      pose proof (Hsmall _ c Hc) as Hadj. unfold cellSymbol, Sprintf_d_space, digits3.
      destruct (IsExploded c); [done|]. destruct (IsVisible c); simpl; [|by destruct (IsMarked c)].
      destruct (IsBlackHole c); [done|].
      destruct (Z.eqb_spec (AdjucentBlackHoleQuantity c) 0); [done|].
      destruct (Z.ltb_spec (AdjucentBlackHoleQuantity c) 0); [lia|].
      destruct (Z.ltb_spec (AdjucentBlackHoleQuantity c) 10); [done | lia].
    + rewrite Hline, bind_Done. eexists. split; [done|]. exists (lines ++ [line]).
      split; [done|]. split; [rewrite length_app; simpl; lia|].
      apply Forall_app. split; [done|]. constructor; [|constructor].
      destruct Hwf as [HW _ _ _]. by rewrite Z.max_r in Hlenl by lia.
  - exists lines. split; [done|]. destruct Hwf as [_ HH _ _].
    rewrite Z.max_r in Hlen by lia. done.
Qed.

Lemma printField_shape_witness :
  ∃ lines, printField corner_field = Done (EmptyString :: lines) ∧ length lines = 3%nat.
Proof.
  destruct (printField_shape corner_field) as (lines & Hrun & Hlen & _).
  - constructor; simpl; [lia | lia | unfold GoInt.max_int; lia | reflexivity].
  - intros i c Hc. repeat (destruct i as [|i]; [injection Hc as <-; simpl; lia|]). done.
  - by exists lines.
Defined.

Lemma views_told_apart_true : views_told_apart = true.
Proof. vm_compute. reflexivity. Qed.

Lemma view_in_allViews c :
  -128 ≤ AdjucentBlackHoleQuantity c ≤ 127 → In (view c) allViews.
Proof.
  intros Hadj. apply list_elem_of_In. unfold allViews. apply elem_of_app. unfold view.
  destruct (IsExploded c); [left; set_solver|].
  destruct (IsVisible c); cbn [negb]; [|left; destruct (IsMarked c); set_solver].
  destruct (IsBlackHole c); [left; set_solver|].
  right. apply list_elem_of_fmap. eexists. split; [done|]. apply elem_of_seqZ. lia.
Qed.

(** [X17] What is written for a cell tells the view of it: for two cells
    whose counters are [int8] values, [printField] writes the same characters
    exactly when the player is given the same view of them - exploded, hidden
    with or without a mark, visible black hole, or visible with this value of
    the counter. *)
Theorem cellSymbol_tells_view (c c' : playCell) :
  -128 ≤ AdjucentBlackHoleQuantity c ≤ 127 →
  -128 ≤ AdjucentBlackHoleQuantity c' ≤ 127 →
  cellSymbol c = cellSymbol c' ↔ view c = view c'.
Proof.
  intros Hc Hc'. rewrite !cellSymbol_view. split; [|by intros ->].
  intros Heq. pose proof views_told_apart_true as Hall. unfold views_told_apart in Hall.
  rewrite forallb_forall in Hall. specialize (Hall _ (view_in_allViews c Hc)).
  rewrite forallb_forall in Hall. specialize (Hall _ (view_in_allViews c' Hc')).
  rewrite Heq, String.eqb_refl in Hall. simpl in Hall. by apply bool_decide_eq_true in Hall.
Qed.

Lemma cellSymbol_tells_view_witness :
  cellSymbol (setVisible zeroCell) = cellSymbol (setMarked (setVisible zeroCell)).
Proof.
  apply (cellSymbol_tells_view (setVisible zeroCell) (setMarked (setVisible zeroCell)));
    [simpl; lia | simpl; lia | reflexivity].
Defined.
